(** * veni-vici: the ban-aware artwork picker of [src/App.jsx]

    A shallow embedding of the logic of the [App] component: the helpers
    [safe] and [artistOf], the ban updates [addBan], [removeBan] and the
    "Clear Bans" handler, and the discover cycle [fetchArtwork] (filter the
    fetched batch by the bans, pick one record, display it).

    Conventions.
    - A JavaScript string is a [string]; each [ascii] stands for one code
      unit below 256.
    - Parsed JSON is the type [value]; numbers are the safe integers.
    - A [Set] of strings is a [gset string]; the [bans] object is a
      [gmap string (gset string)] from property names to sets.
    - Code that can throw returns a [result]; [let* x := c in k] sequences it.
    - A number that the code computes with is a [double]: a finite IEEE 754
      binary64 value, given by an integer mantissa below 2^53 in absolute
      value and an exponent, and read as a rational. A product is the exact
      product rounded to the nearest double, ties to even ([double_round]).
      [Math.random()] gives a double in [0,1). *)

From Stdlib Require Import ZArith QArith Qround Qabs Qpower String Ascii List.
From Stdlib Require Import Lia Lqa DecimalString SpecFloat.
From stdpp Require Import base option list gmap sets strings.

Local Open Scope string_scope.
#[local] Set Warnings "-register-all".

(** ** JavaScript values and exceptions *)

Inductive value : Type :=
| VUndef
| VNull
| VBool (b : bool)
| VNum (n : Z)
| VStr (s : string)
| VArr (items : list value)
| VObj (props : list (string * value)).

Inductive exn : Type :=
| TypeError
| AxiosError.

Inductive result (A : Type) : Type :=
| Ok (a : A)
| Throw (e : exn).

Arguments Ok {A} a.
Arguments Throw {A} e.

Definition rbind {A B : Type} (c : result A) (k : A -> result B) : result B :=
  match c with
  | Ok a => k a
  | Throw e => Throw e
  end.

Notation "'let*' x ':=' c 'in' k" := (rbind c (fun x => k))
  (at level 10, x name, c at level 100, k at level 200).

Definition is_Ok {A : Type} (c : result A) : bool :=
  match c with
  | Ok _ => true
  | Throw _ => false
  end.

(** The sentinel for an unknown field. *)
Definition NA : string := "N/A".

(** ToBoolean. *)
Definition truthy (v : value) : bool :=
  match v with
  | VUndef | VNull => false
  | VBool b => b
  | VNum n => negb (n =? 0)%Z
  | VStr s => negb (String.eqb s EmptyString)
  | VArr _ | VObj _ => true
  end.

Definition nullish (v : value) : bool :=
  match v with
  | VUndef | VNull => true
  | _ => false
  end.

(** [a || b]. *)
Definition js_or (a b : value) : value := if truthy a then a else b.

(** Own-property lookup in a parsed JSON object, given as the list of its
    properties (a name occurs once). *)
Fixpoint own (props : list (string * value)) (k : string) : option value :=
  match props with
  | [] => None
  | (k', v) :: rest => if String.eqb k' k then Some v else own rest k
  end.

(** [v.k] on a value that is neither null nor undefined, for the property
    names [App.jsx] reads (data, records, people, name, culture, century,
    title, dated, medium, primaryimageurl): none of them is found on the
    prototype of an object, array, string, number or boolean, so only an
    own property of an object can answer. *)
Definition prop (v : value) (k : string) : value :=
  match v with
  | VObj props => default VUndef (own props k)
  | _ => VUndef
  end.

(** [v?.k]. *)
Definition opt_prop (v : value) (k : string) : value :=
  if nullish v then VUndef else prop v k.

(** [v.k], which throws on null and undefined. *)
Definition get_prop (v : value) (k : string) : result value :=
  if nullish v then Throw TypeError else Ok (prop v k).

(** [v?.[0]]: the first element of an array, the first code unit of a
    string, the own property 0 of an object. *)
Definition opt_first (v : value) : value :=
  match v with
  | VArr items => default VUndef (head items)
  | VStr (String a _) => VStr (String a EmptyString)
  | VObj props => default VUndef (own props "0")
  | _ => VUndef
  end.

(** ** Strings: [String(v)] and [trim] *)

(** White space and line terminators of ECMAScript below code unit 256:
    TAB, LF, VT, FF, CR, SP and NBSP. *)
Definition is_white_space (a : ascii) : bool :=
  let n := nat_of_ascii a in
  ((9 <=? n)%nat && (n <=? 13)%nat) || (n =? 32)%nat || (n =? 160)%nat.

Fixpoint trimStart (l : list ascii) : list ascii :=
  match l with
  | [] => []
  | a :: rest => if is_white_space a then trimStart rest else l
  end.

Definition trimEnd (l : list ascii) : list ascii := rev (trimStart (rev l)).

Definition trim (s : string) : string :=
  string_of_list_ascii (trimEnd (trimStart (list_ascii_of_string s))).

Definition whitespace_only (s : string) : bool :=
  forallb is_white_space (list_ascii_of_string s).

Definition string_of_Z (n : Z) : string := NilZero.string_of_int (Z.to_int n).

(** [String(v)]. An array joins the strings of its elements with commas,
    null and undefined elements giving the empty string. An object parsed
    from JSON prints as [object Object], unless it has an own property
    toString: that property is data, not a function, and the inherited
    valueOf returns the object itself, so the conversion throws. *)
Fixpoint ToString (v : value) : result string :=
  match v with
  | VUndef => Ok "undefined"
  | VNull => Ok "null"
  | VBool true => Ok "true"
  | VBool false => Ok "false"
  | VNum n => Ok (string_of_Z n)
  | VStr s => Ok s
  | VArr items =>
      let element (x : value) : result string :=
        match x with
        | VUndef | VNull => Ok EmptyString
        | _ => ToString x
        end in
      (fix join (l : list value) : result string :=
         match l with
         | [] => Ok EmptyString
         | [x] => element x
         | x :: rest =>
             let* s := element x in
             let* t := join rest in
             Ok (s ++ "," ++ t)
         end) items
  | VObj props =>
      match own props "toString" with
      | Some _ => Throw TypeError
      | None => Ok "[object Object]"
      end
  end.

(** ** Helpers of [App] *)

(** [safe = (s) => (s && String(s).trim()) || "N/A"]. *)
Definition safe (s : value) : result string :=
  if truthy s then
    let* str := ToString s in
    let t := trim str in
    if String.eqb t EmptyString then Ok NA else Ok t
  else Ok NA.

(** [r?.people?.[0]?.name]. *)
Definition first_person_name (r : value) : value :=
  let people := opt_prop r "people" in
  let first := if nullish people then VUndef else opt_first people in
  opt_prop first "name".

(** [artistOf = (r) => safe(r?.people?.[0]?.name)]. *)
Definition artistOf (r : value) : result string :=
  safe (first_person_name r).

(** ** The ban list *)

(** The [bans] object: property names to sets of strings. *)
Abbreviation bans_t := (gmap string (gset string)).

(** The initial state of [useState] for the bans. *)
Definition initial_bans : bans_t :=
  <["Artist" := ∅]> (<["Culture" := ∅]> (<["Century" := ∅]> ∅)).

(** The property names every plain object inherits from Object.prototype. *)
Definition Object_prototype_names : list string :=
  [ "constructor"; "__defineGetter__"; "__defineSetter__"; "hasOwnProperty";
    "__lookupGetter__"; "__lookupSetter__"; "isPrototypeOf";
    "propertyIsEnumerable"; "toString"; "valueOf"; "__proto__";
    "toLocaleString" ].

Definition inherited (attr : string) : bool :=
  existsb (String.eqb attr) Object_prototype_names.

(** [new Set(prev[attr])]: a copy of the set stored under [attr]; the empty
    set when [prev[attr]] is undefined; a TypeError when [prev[attr]] is an
    inherited member of Object.prototype, which is not iterable. *)
Definition new_Set_of (prev : bans_t) (attr : string) : result (gset string) :=
  match prev !! attr with
  | Some s => Ok s
  | None => if inherited attr then Throw TypeError else Ok ∅
  end.

(** [addBan(attr, value)]: the state of the bans after the call. *)
Definition addBan (attr value : string) (prev : bans_t) : result bans_t :=
  if String.eqb value EmptyString || String.eqb value NA then Ok prev
  else
    let* s := new_Set_of prev attr in
    Ok (<[attr := s ∪ {[value]}]> prev).

(** [removeBan(attr, value)]. *)
Definition removeBan (attr value : string) (prev : bans_t) : result bans_t :=
  let* next := new_Set_of prev attr in
  Ok (<[attr := next ∖ {[value]}]> prev).

(** The "Clear Bans" handler:
    [setBans({ Artist: new Set(), Culture: new Set(), Century: new Set() })]. *)
Definition clearBans (prev : bans_t) : bans_t :=
  <["Artist" := ∅]> (<["Culture" := ∅]> (<["Century" := ∅]> ∅)).

(** The operations on the bans, and the states they reach from the
    initial one. *)
Inductive ban_op : Type :=
| AddBan (attr value : string)
| RemoveBan (attr value : string)
| ClearBans.

Definition apply_op (op : ban_op) (prev : bans_t) : result bans_t :=
  match op with
  | AddBan attr value => addBan attr value prev
  | RemoveBan attr value => removeBan attr value prev
  | ClearBans => Ok (clearBans prev)
  end.

Inductive reachable : bans_t -> Prop :=
| reach_initial : reachable initial_bans
| reach_step op prev next :
    reachable prev -> apply_op op prev = Ok next -> reachable next.

(** ** The discover cycle *)

(** [bans.K.has(x)]; a TypeError when [bans.K] is undefined. *)
Definition has (b : bans_t) (k x : string) : result bool :=
  match b !! k with
  | Some s => Ok (bool_decide (x ∈ s))
  | None => Throw TypeError
  end.

(** The three strings a record is checked by. *)
Definition ban_keys (r : value) : result (string * string * string) :=
  let* a := artistOf r in
  let* cu := safe (opt_prop r "culture") in
  let* ce := safe (opt_prop r "century") in
  Ok (a, cu, ce).

(** The callback of [artworks.filter]. *)
Definition keep (b : bans_t) (r : value) : result bool :=
  let* a := artistOf r in
  let* cu := safe (opt_prop r "culture") in
  let* ce := safe (opt_prop r "century") in
  let* banned_a := has b "Artist" a in
  if banned_a then Ok false else
  let* banned_cu := has b "Culture" cu in
  if banned_cu then Ok false else
  let* banned_ce := has b "Century" ce in
  if banned_ce then Ok false else Ok true.

(** [Array.prototype.filter] with a callback that may throw. *)
Fixpoint filter_array (f : value -> result bool) (l : list value)
  : result (list value) :=
  match l with
  | [] => Ok []
  | x :: rest =>
      let* kept := f x in
      let* tail := filter_array f rest in
      Ok (if kept then x :: tail else tail)
  end.

(** [response?.data?.records || []]. *)
Definition artworks (response : value) : value :=
  js_or (opt_prop (opt_prop response "data") "records") (VArr []).

(** [artworks.filter(...)]: only an array has a callable [filter]. *)
Definition eligible (b : bans_t) (arts : value) : result (list value) :=
  match arts with
  | VArr l => filter_array (keep b) l
  | _ => Throw TypeError
  end.

(** The displayed artwork fields. *)
Record view : Type := {
  Title : value;
  Artist : string;
  Culture : string;
  Century : string;
  Date : value;
  Medium : value;
  Image : value
}.

(** The argument of [setInputs]. *)
Definition inputs_of (pick : value) : result view :=
  let* title := get_prop pick "title" in
  let* artist := artistOf pick in
  let* culture := safe (prop pick "culture") in
  let* century := safe (prop pick "century") in
  Ok {| Title := js_or title (VStr NA);
        Artist := artist;
        Culture := culture;
        Century := century;
        Date := js_or (prop pick "dated") (VStr NA);
        Medium := js_or (prop pick "medium") (VStr NA);
        Image := js_or (prop pick "primaryimageurl") (VStr EmptyString) |}.

(** [l[i]] for an integer index. *)
Definition at_index (l : list value) (i : Z) : value :=
  if (i <? 0)%Z then VUndef else default VUndef (l !! Z.to_nat i).

(** *** Doubles *)

Section Doubles.

Local Open Scope Q_scope.

(** A finite double: the number [mantissa * 2^exponent], with a mantissa of
    at most 53 bits and an exponent in the range of binary64 (subnormal
    numbers have exponent -1074). Both zeros are the number 0. *)
Record double : Type := {
  mantissa : Z;
  exponent : Z;
  double_ok :
    ((Z.abs mantissa <? 2 ^ 53) && (-1074 <=? exponent) && (exponent <=? 971))%Z
    = true
}.

Definition double_val (d : double) : Q := inject_Z (mantissa d) * 2 ^ exponent d.

(** The binade of a number that is not zero: the integer [b] with
    [2^b <= |x| < 2^(b+1)]. *)
Definition binade (x : Q) : Z :=
  let d := (Z.log2 (Z.abs (Qnum x)) - Z.log2 (Zpos (Qden x)))%Z in
  if Qle_bool (2 ^ d) (Qabs x) then d else (d - 1)%Z.

(** The nearest integer, the even one of two that are equally near. *)
Definition round_half_even (y : Q) : Z :=
  let f := Qfloor y in
  match Qcompare (y - inject_Z f) (1 # 2) with
  | Lt => f
  | Gt => (f + 1)%Z
  | Eq => if Z.even f then f else (f + 1)%Z
  end.

(** The exponent of the unit in the last place of the doubles around [x]:
    53 bits of precision, from the smallest normal binade -1022 on. *)
Definition ulp_exponent (x : Q) : Z := (Z.max (binade x) (-1022) - 52)%Z.

(** The double nearest to [x], ties to even: the rounding of every
    arithmetic operation of JavaScript. Numbers of magnitude 2^1024 and
    more, which round to an infinity, do not occur in this program. *)
Definition double_round (x : Q) : Q :=
  if Qeq_bool x 0 then 0
  else
    let e := ulp_exponent x in
    inject_Z (round_half_even (x / 2 ^ e)) * 2 ^ e.

(** [Math.floor(random * n)]: the product of the doubles [random] and [n]
    is their exact product rounded to a double; the floor of a double is
    exact. *)
Definition random_index (random : Q) (n : nat) : Z :=
  Qfloor (double_round (random * inject_Z (Z.of_nat n))).

(** The number a float of the Standard Library's specification of IEEE 754
    stands for. *)
Definition SF2Q (f : spec_float) : Q :=
  match f with
  | S754_finite s m e => inject_Z (if s then Z.neg m else Z.pos m) * 2 ^ e
  | _ => 0
  end.

(** The float of that specification with mantissa [m] and exponent [e],
    and the product of two doubles as the specification rounds it (53 bits
    of precision, exponents below 1024). *)
Definition SF_of (m e : Z) : spec_float :=
  match m with
  | Z0 => S754_zero false
  | Zpos p => S754_finite false p e
  | Zneg p => S754_finite true p e
  end.

Definition SF_product (m e : Z) (n : nat) : Q :=
  SF2Q (SFmul 53 1024 (SF_of m e) (SF_of (Z.of_nat n) 0)).

(** Whether [double_round] gives the product of [m * 2^e] and [n] that the
    specification gives. *)
Definition agrees (m e : Z) (n : nat) : bool :=
  Qeq_bool (SF_product m e n)
           (double_round (inject_Z m * 2 ^ e * inject_Z (Z.of_nat n))).

End Doubles.

Coercion double_val : double >-> Q.

(** The double [m * 2^e]. *)
Abbreviation dbl m e := (Build_double m e eq_refl).

(** 0, 1/4, 1/2, 7/8, and 0.3333333333333333, the double nearest to 1/3. *)
Definition zero : double := dbl 0 0.
Definition quarter : double := dbl 1 (-2).
Definition half : double := dbl 1 (-1).
Definition seven_eighths : double := dbl 7 (-3).
Definition third : double := dbl 6004799503160661 (-54).

Inductive selection : Type :=
| Shown (v : view)
| EmptyResult.

(** The body of the [try] block after the response has arrived: filter,
    test for emptiness, pick, build the displayed record. *)
Definition select (b : bans_t) (response : value) (random : double)
  : result selection :=
  let* el := eligible b (artworks response) in
  if (length el =? 0)%nat then Ok EmptyResult
  else
    let pick := at_index el (random_index random (length el)) in
    let* v := inputs_of pick in
    Ok (Shown v).

Record app_state : Type := {
  inputs : view;
  bans : bans_t;
  loading : bool;
  error : string
}.

Definition initial_inputs : view :=
  {| Title := VStr EmptyString; Artist := EmptyString; Culture := EmptyString;
     Century := EmptyString; Date := VStr EmptyString;
     Medium := VStr EmptyString; Image := VStr EmptyString |}.

Definition initial_state : app_state :=
  {| inputs := initial_inputs; bans := initial_bans;
     loading := false; error := EmptyString |}.

Definition empty_message : string :=
  "Nothing found that avoids your ban list. Try clearing some bans.".

(** The apostrophe and the dash of this message are not code units below
    256; the message is only stored and shown, never inspected, and is kept
    as the bytes of the source file. *)
Definition fetch_message : string := "Couldn’t fetch artwork—try again.".

Definition alert_message : string :=
  "Missing API key. Add VITE_HAM_API_KEY to your .env and restart.".

(** [apiKey] is truthy: defined and not the empty string. *)
Definition key_present (apiKey : option string) : bool :=
  truthy (from_option VStr VUndef apiKey).

(** [fetchArtwork]. [apiKey] is the environment variable ([None] when it is
    not defined), [http] is what [await axios.get(url)] gives: a response,
    or the error it rejects with. The result is the alert shown, if any,
    and the state after the cycle. *)
Definition fetchArtwork (apiKey : option string) (http : result value)
    (random : double) (st : app_state) : option string * app_state :=
  if negb (key_present apiKey) then (Some alert_message, st)
  else
    let outcome := let* response := http in select (bans st) response random in
    (None,
     match outcome with
     | Ok (Shown v) =>
         {| inputs := v; bans := bans st; loading := false;
            error := EmptyString |}
     | Ok EmptyResult =>
         {| inputs := inputs st; bans := bans st; loading := false;
            error := empty_message |}
     | Throw _ =>
         {| inputs := inputs st; bans := bans st; loading := false;
            error := fetch_message |}
     end).

(** ** Predicates used in the statements *)

Section Predicates.

Implicit Types (attr k : string) (b : bans_t) (r x : value).

(** The set stored under a name, empty when there is none. *)
Definition set_at b k : gset string := default ∅ (b !! k).

Definition tracked attr : Prop :=
  attr = "Artist" \/ attr = "Culture" \/ attr = "Century".

(** No set of a reachable state holds the sentinel, and the three tracked
    names always have a set. *)
Definition sentinel_free b : Prop := forall k, NA ∉ set_at b k.

Definition has_tracked b : Prop :=
  is_Some (b !! "Artist") /\ is_Some (b !! "Culture") /\ is_Some (b !! "Century").

(** A raw record of the catalog: a JSON object whose artist, culture and
    century can be converted to strings. *)
Definition raw_record r : bool :=
  match r with
  | VObj _ => is_Ok (ban_keys r)
  | _ => false
  end.

(** A source field that is missing (absent or null), empty or made of
    white space only. *)
Definition blank x : bool :=
  match x with
  | VUndef | VNull => true
  | VStr s => whitespace_only s
  | _ => false
  end.

(** A source field that is missing (absent or null) or empty. *)
Definition missing_or_empty x : bool :=
  match x with
  | VUndef | VNull => true
  | VStr s => String.eqb s EmptyString
  | _ => false
  end.

End Predicates.

(** ** Scenarios *)

Definition vase : value :=
  VObj [ ("title", VStr "Vase");
         ("people", VArr [VObj [("name", VStr "Unknown")]]);
         ("culture", VStr "Greek");
         ("century", VStr "5th century B.C.");
         ("dated", VStr "450 BC");
         ("medium", VStr "Clay");
         ("primaryimageurl", VStr "http://x/1.jpg") ].

Definition amphora : value :=
  VObj [ ("title", VStr "Amphora");
         ("people", VArr [VObj [("name", VStr " Exekias ")]]);
         ("culture", VStr "Roman");
         ("dated", VStr "540 BC") ].

Definition response_of (records : list value) : value :=
  VObj [("status", VNum 200); ("data", VObj [("records", VArr records)])].

(** ** The handlers wired in the JSX, and what is rendered *)

(** The three fields rendered as clickable pills ([KVC]) and as chip
    groups. *)
Inductive attribute : Type :=
| ArtistAttr
| CultureAttr
| CenturyAttr.

Definition attr_name (a : attribute) : string :=
  match a with
  | ArtistAttr => "Artist"
  | CultureAttr => "Culture"
  | CenturyAttr => "Century"
  end.

(** [inputs.Artist], [inputs.Culture], [inputs.Century]. *)
Definition shown_field (a : attribute) (v : view) : string :=
  match a with
  | ArtistAttr => Artist v
  | CultureAttr => Culture v
  | CenturyAttr => Century v
  end.

(** The clicks the page offers: the Discover button, the Clear Bans
    button, a pill ([onClick={() => addBan(k, inputs.k)}]) and the chip of
    a banned value ([onRemove={() => removeBan(k, v)}]). A Discover click
    carries what the request and [Math.random()] will give. *)
Inductive event : Type :=
| ClickDiscover (http : result value) (random : double)
| ClickClearBans
| ClickPill (a : attribute)
| ClickChip (a : attribute) (v : string).

Definition with_bans (st : app_state) (b : bans_t) : app_state :=
  {| inputs := inputs st; bans := b; loading := loading st;
     error := error st |}.

(** The state after the handler of a click has run; for Discover, after
    the whole cycle has run with no other click before the request settles
    (the cycle in two parts is [start_discover] and [settle] below). *)
Definition handle (apiKey : option string) (ev : event) (st : app_state)
  : result app_state :=
  match ev with
  | ClickDiscover http random => Ok (snd (fetchArtwork apiKey http random st))
  | ClickClearBans => Ok (with_bans st (clearBans (bans st)))
  | ClickPill a =>
      let* b := addBan (attr_name a) (shown_field a (inputs st)) (bans st) in
      Ok (with_bans st b)
  | ClickChip a v =>
      let* b := removeBan (attr_name a) v (bans st) in
      Ok (with_bans st b)
  end.

(** A click is offered when its control is rendered and enabled: Discover
    is [disabled={loading}], and a chip exists for the members of its
    set only. *)
Definition offered (ev : event) (st : app_state) : Prop :=
  match ev with
  | ClickDiscover _ _ => loading st = false
  | ClickChip a v => v ∈ default ∅ (bans st !! attr_name a)
  | ClickClearBans | ClickPill _ => True
  end.

(** *** The page while a request is in flight

    [fetchArtwork] is suspended at [await axios.get(url)]. Until the request
    settles the page stays interactive, with [loading] true: pills, chips
    and Clear Bans are handled as usual, and only the Discover button is
    disabled. The continuation then runs with the [bans] of the render in
    which Discover was clicked, whatever the bans have become. *)

(** The React state, and the bans captured by the pending call of
    [fetchArtwork], if there is one. *)
Record page : Type := {
  state : app_state;
  in_flight : option bans_t
}.

Definition initial_page : page :=
  {| state := initial_state; in_flight := None |}.

(** [fetchArtwork] up to the [await]: the alert without an API key, else
    [setLoading(true)], [setError("")] and the request. *)
Definition start_discover (apiKey : option string) (p : page)
  : option string * page :=
  if negb (key_present apiKey) then (Some alert_message, p)
  else
    (None,
     {| state := {| inputs := inputs (state p); bans := bans (state p);
                    loading := true; error := EmptyString |};
        in_flight := Some (bans (state p)) |}).

(** [fetchArtwork] from the [await] on, when the request has settled with
    [http]: the [try] body with the captured bans [b], the [catch] and the
    [finally], applied to the state of that moment. *)
Definition settle (b : bans_t) (http : result value) (random : double)
    (st : app_state) : app_state :=
  let outcome := let* response := http in select b response random in
  match outcome with
  | Ok (Shown v) =>
      {| inputs := v; bans := bans st; loading := false;
         error := EmptyString |}
  | Ok EmptyResult =>
      {| inputs := inputs st; bans := bans st; loading := false;
         error := empty_message |}
  | Throw _ =>
      {| inputs := inputs st; bans := bans st; loading := false;
         error := fetch_message |}
  end.

(** The clicks other than Discover. *)
Definition other_click (ev : event) : Prop :=
  match ev with
  | ClickDiscover _ _ => False
  | _ => True
  end.

(** One step of the page: a click on Discover when it is enabled, the
    pending request settling, or any other click that is offered. *)
Inductive page_step (apiKey : option string) : page -> page -> Prop :=
| step_discover p :
    loading (state p) = false ->
    page_step apiKey p (snd (start_discover apiKey p))
| step_settle p b http random :
    in_flight p = Some b ->
    page_step apiKey p
      {| state := settle b http random (state p); in_flight := None |}
| step_click p ev st' :
    other_click ev -> offered ev (state p) ->
    handle apiKey ev (state p) = Ok st' ->
    page_step apiKey p {| state := st'; in_flight := in_flight p |}.

Inductive page_reachable (apiKey : option string) : page -> Prop :=
| reach_initial_page : page_reachable apiKey initial_page
| reach_page_step p p' :
    page_reachable apiKey p -> page_step apiKey p p' ->
    page_reachable apiKey p'.

(** The placeholder of an empty field; its dash is kept as the bytes of
    the source file. *)
Definition dash : string := "—".

(** [x || "—"], the text of a field of the viewer. *)
Definition or_dash (x : value) : value := js_or x (VStr dash).

(** The key and the text of a chip: [`K:${v}`] and [`K: ${v}`]. *)
Definition chip (k v : string) : string * string :=
  (k ++ ":" ++ v, k ++ ": " ++ v).

(** The chips of one group, [[...bans.K].map((v) => <Chip key=... text=... />)],
    as pairs of key and text. The chips follow the elements of the set;
    the order in which a [Set] iterates is not modelled. *)
Definition chips_of (b : bans_t) (k : string) : result (list (string * string)) :=
  match b !! k with
  | Some s =>
      Ok (chip k <$> elements s)
  | None => Throw TypeError
  end.

(** The three chip groups, in the order of the JSX. *)
Definition chips (b : bans_t) : result (list (string * string)) :=
  let* artist := chips_of b "Artist" in
  let* culture := chips_of b "Culture" in
  let* century := chips_of b "Century" in
  Ok (artist ++ culture ++ century)%list.

(** [!bans.K.size]. *)
Definition no_size (b : bans_t) (k : string) : result bool :=
  match b !! k with
  | Some s => Ok (size s =? 0)%nat
  | None => Throw TypeError
  end.

(** [!bans.Artist.size && !bans.Culture.size && !bans.Century.size], the
    condition under which the hint for an empty ban list is rendered. *)
Definition no_bans_hint (b : bans_t) : result bool :=
  let* artist := no_size b "Artist" in
  if negb artist then Ok false else
  let* culture := no_size b "Culture" in
  if negb culture then Ok false else
  no_size b "Century".

(** A string that [safe] can return for a known value: not empty, without
    white space at its ends, and not the sentinel. *)
Definition bannable (s : string) : Prop :=
  s <> EmptyString /\ s <> NA /\ trim s = s.

(** ** Notions used in the further properties *)

(** A list of code units that does not start with white space. *)
Definition head_kept (l : list ascii) : Prop :=
  match l with
  | [] => True
  | a :: _ => is_white_space a = false
  end.

(** [trim] on the list of code units. *)
Definition trim_list (l : list ascii) : list ascii := trimEnd (trimStart l).

(** The common shape of [addBan] and [removeBan]: nothing, or the set of
    [attr] replaced by its image under [f]. *)
Definition update_set (attr : string)
    (f : option (gset string -> gset string)) (b : bans_t) : result bans_t :=
  match f with
  | None => Ok b
  | Some f => let* t := new_Set_of b attr in Ok (<[attr := f t]> b)
  end.

Definition tracked_names : gset string :=
  {[ "Artist"; "Culture"; "Century" ]}.

(** Bans with exactly the three tracked entries, holding values that
    [safe] can return for a known field. *)
Definition sound_bans (b : bans_t) : Prop :=
  dom b = tracked_names /\ (forall k x, x ∈ set_at b k -> bannable x).

(** What every reachable page satisfies. *)
Definition page_invariant (p : page) : Prop :=
  sound_bans (bans (state p)) /\
  (inputs (state p) = initial_inputs \/
   exists pick, inputs_of pick = Ok (inputs (state p))) /\
  (loading (state p) = true <-> in_flight p <> None) /\
  (forall b, in_flight p = Some b -> sound_bans b).

(** The number of banned values. *)
Definition ban_count (b : bans_t) : nat :=
  size (set_at b "Artist") + size (set_at b "Culture") + size (set_at b "Century").

Definition vase_view : view :=
  {| Title := VStr "Vase"; Artist := "Unknown"; Culture := "Greek";
     Century := "5th century B.C."; Date := VStr "450 BC";
     Medium := VStr "Clay"; Image := VStr "http://x/1.jpg" |}.

(** The page after the vase has been discovered, and after its culture
    has then been banned. *)
Definition vase_shown : app_state :=
  {| inputs := vase_view; bans := initial_bans; loading := false;
     error := EmptyString |}.

Definition vase_greek_banned : app_state :=
  {| inputs := vase_view; bans := <["Culture" := {["Greek"]}]> initial_bans;
     loading := false; error := EmptyString |}.

(** The page when, with the vase shown, Discover has been clicked and the
    culture of the vase banned before the request has settled. *)
Definition banned_while_loading : page :=
  {| state := {| inputs := vase_view;
                 bans := <["Culture" := {["Greek"]}]> initial_bans;
                 loading := true; error := EmptyString |};
     in_flight := Some initial_bans |}.

(** Bans with three chips, the same value under two attributes. *)
Definition three_bans : bans_t :=
  <["Artist" := {["Greek"]}]> (<["Culture" := {["Greek"; "Roman"]}]> initial_bans).

(** * Properties *)

Example ToString_array :
  ToString (VArr [VStr "a"; VNull; VNum (-12); VArr [VBool true; VNum 0]])
  = Ok "a,,-12,true,0".
Proof. reflexivity. Qed.

Example trim_both : trim "  5th century B.C. " = "5th century B.C.".
Proof. reflexivity. Qed.

Example safe_values :
  safe (VNum 0) = Ok NA /\ safe (VNum 1650) = Ok "1650" /\
  safe (VStr "   ") = Ok NA /\ safe (VArr []) = Ok NA /\
  safe (VObj [("toString", VNull)]) = Throw TypeError.
Proof. repeat split. Qed.

Example select_vase :
  select initial_bans (response_of [vase]) half
  = Ok (Shown {| Title := VStr "Vase"; Artist := "Unknown";
                 Culture := "Greek"; Century := "5th century B.C.";
                 Date := VStr "450 BC"; Medium := VStr "Clay";
                 Image := VStr "http://x/1.jpg" |}).
Proof. vm_compute. reflexivity. Qed.

Example select_vase_greek_banned :
  select (<["Culture" := {["Greek"]}]> initial_bans) (response_of [vase]) half
  = Ok EmptyResult.
Proof. vm_compute. reflexivity. Qed.

Example select_second_of_two :
  select initial_bans (response_of [vase; amphora]) half
  = Ok (Shown {| Title := VStr "Amphora"; Artist := "Exekias";
                 Culture := "Roman"; Century := "N/A";
                 Date := VStr "540 BC"; Medium := VStr "N/A";
                 Image := VStr EmptyString |}).
Proof. vm_compute. reflexivity. Qed.

(** ** Ban management *)

Section BanManagement.

Implicit Types (attr value k : string) (prev next b : bans_t).

Lemma tracked_not_inherited attr : tracked attr -> inherited attr = false.
Proof. intros [-> | [-> | ->]]; reflexivity. Qed.

Lemma new_Set_of_Ok prev attr :
  inherited attr = false -> new_Set_of prev attr = Ok (set_at prev attr).
Proof.
  intros Hinh. unfold new_Set_of, set_at.
  destruct (prev !! attr); simpl; [reflexivity | now rewrite Hinh].
Qed.

Lemma new_Set_of_inv prev attr s :
  new_Set_of prev attr = Ok s -> s = set_at prev attr.
Proof.
  unfold new_Set_of, set_at. destruct (prev !! attr); simpl.
  - now intros [= ->].
  - destruct (inherited attr); [discriminate | now intros [= <-]].
Qed.

Lemma addBan_guarded attr value prev :
  value = EmptyString \/ value = NA -> addBan attr value prev = Ok prev.
Proof. intros [-> | ->]; reflexivity. Qed.

Lemma addBan_unguarded attr value prev :
  value <> EmptyString -> value <> NA ->
  addBan attr value prev
  = let* s := new_Set_of prev attr in Ok (<[attr := s ∪ {[value]}]> prev).
Proof.
  intros He Hn. unfold addBan.
  apply String.eqb_neq in He, Hn. now rewrite He, Hn.
Qed.

Lemma addBan_inv attr value prev next :
  addBan attr value prev = Ok next ->
  next = prev \/
  (value <> NA /\ next = <[attr := set_at prev attr ∪ {[value]}]> prev).
Proof.
  unfold addBan.
  destruct (String.eqb value EmptyString) eqn:He; simpl.
  { intros [= <-]. now left. }
  destruct (String.eqb value NA) eqn:Hn; simpl.
  { intros [= <-]. now left. }
  destruct (new_Set_of prev attr) as [s | e] eqn:Hs; simpl; [| discriminate].
  intros [= <-]. right. apply new_Set_of_inv in Hs as ->.
  split; [now apply String.eqb_neq | reflexivity].
Qed.

Lemma removeBan_inv attr value prev next :
  removeBan attr value prev = Ok next ->
  next = <[attr := set_at prev attr ∖ {[value]}]> prev.
Proof.
  unfold removeBan.
  destruct (new_Set_of prev attr) as [s | e] eqn:Hs; simpl; [| discriminate].
  intros [= <-]. now apply new_Set_of_inv in Hs as ->.
Qed.

Lemma set_at_insert b attr k (s : gset string) :
  set_at (<[attr := s]> b) k = if decide (attr = k) then s else set_at b k.
Proof.
  unfold set_at. rewrite lookup_insert. now destruct (decide (attr = k)).
Qed.

Lemma set_at_clearBans prev k : set_at (clearBans prev) k = ∅.
Proof.
  unfold clearBans. rewrite !set_at_insert.
  repeat case_decide; reflexivity.
Qed.

Lemma has_tracked_insert b attr (s : gset string) :
  has_tracked b -> has_tracked (<[attr := s]> b).
Proof.
  intros (HA & HCu & HCe). unfold has_tracked.
  rewrite !lookup_insert. repeat case_decide; eauto.
Qed.

Lemma apply_op_sentinel_free op prev next :
  sentinel_free prev -> apply_op op prev = Ok next -> sentinel_free next.
Proof.
  intros Hprev Hop k. destruct op as [attr value | attr value |]; simpl in Hop.
  - apply addBan_inv in Hop as [-> | [Hne ->]]; [apply Hprev |].
    rewrite set_at_insert. destruct (decide (attr = k)); [| apply Hprev].
    intros [Hin | Hin%elem_of_singleton]%elem_of_union;
      [now apply (Hprev attr) | congruence].
  - apply removeBan_inv in Hop as ->.
    rewrite set_at_insert. destruct (decide (attr = k)); [| apply Hprev].
    intros [Hin _]%elem_of_difference. now apply (Hprev attr).
  - injection Hop as <-. rewrite set_at_clearBans. apply not_elem_of_empty.
Qed.

Lemma apply_op_has_tracked op prev next :
  has_tracked prev -> apply_op op prev = Ok next -> has_tracked next.
Proof.
  intros Hprev Hop. destruct op as [attr value | attr value |]; simpl in Hop.
  - apply addBan_inv in Hop as [-> | [_ ->]]; [assumption |].
    now apply has_tracked_insert.
  - apply removeBan_inv in Hop as ->. now apply has_tracked_insert.
  - injection Hop as <-. split; [| split]; eexists; reflexivity.
Qed.

Lemma reachable_invariant b :
  reachable b -> sentinel_free b /\ has_tracked b.
Proof.
  induction 1 as [| op prev next _ [IHs IHt] Hop].
  - split.
    + intros k. change initial_bans with (clearBans ∅).
      rewrite set_at_clearBans. apply not_elem_of_empty.
    + split; [| split]; eexists; reflexivity.
  - split; [eapply apply_op_sentinel_free | eapply apply_op_has_tracked]; eauto.
Qed.

End BanManagement.

Section BanTheorems.

Implicit Types (attr value k : string) (prev next b : bans_t).

Lemma inherited_attribute_throws attr value prev :
  inherited attr = true -> prev !! attr = None ->
  removeBan attr value prev = Throw TypeError /\
  (value <> EmptyString -> value <> NA ->
   addBan attr value prev = Throw TypeError).
Proof.
  intros Hinh Hnone. split.
  - unfold removeBan, new_Set_of. now rewrite Hnone, Hinh.
  - intros He Hn. rewrite addBan_unguarded by assumption.
    unfold new_Set_of. now rewrite Hnone, Hinh.
Qed.

(** C5. In every state of the bans reachable from the initial one by
    addBan, removeBan and Clear Bans, the three tracked sets exist and none
    holds the sentinel N/A; addBan with an empty value or with N/A returns
    the state unchanged; removeBan and Clear Bans add no element to any
    set; and every operation leads to a state with the same property. *)
Theorem sentinel_never_banned b :
  reachable b ->
  (exists sA sCu sCe,
      b !! "Artist" = Some sA /\ b !! "Culture" = Some sCu /\
      b !! "Century" = Some sCe /\ (NA ∉ sA) /\ (NA ∉ sCu) /\ (NA ∉ sCe)) /\
  (forall attr value,
      value = EmptyString \/ value = NA -> addBan attr value b = Ok b) /\
  (forall attr value next k,
      removeBan attr value b = Ok next -> set_at next k ⊆ set_at b k) /\
  (forall k, set_at (clearBans b) k = ∅) /\
  (forall op next k, apply_op op b = Ok next -> NA ∉ set_at next k).
Proof.
  intros Hreach. destruct (reachable_invariant b Hreach) as [Hfree Htracked].
  repeat split.
  - destruct Htracked as ([sA HA] & [sCu HCu] & [sCe HCe]).
    exists sA, sCu, sCe. repeat split; try assumption.
    + generalize (Hfree "Artist"). unfold set_at. now rewrite HA.
    + generalize (Hfree "Culture"). unfold set_at. now rewrite HCu.
    + generalize (Hfree "Century"). unfold set_at. now rewrite HCe.
  - intros attr value. apply addBan_guarded.
  - intros attr value next k Hrm x. apply removeBan_inv in Hrm as ->.
    rewrite set_at_insert. destruct (decide (attr = k)) as [<- |]; [| tauto].
    now intros [Hin _]%elem_of_difference.
  - apply set_at_clearBans.
  - intros op next k Hop.
    now apply (apply_op_sentinel_free op b next Hfree Hop).
Qed.

Lemma sentinel_never_banned_witness :
  let b := <["Culture" := {["Greek"]}]> initial_bans in
  reachable b /\
  exists sA sCu sCe,
    b !! "Artist" = Some sA /\ b !! "Culture" = Some sCu /\
    b !! "Century" = Some sCe /\ (NA ∉ sA) /\ (NA ∉ sCu) /\ (NA ∉ sCe).
Proof.
  intros b.
  assert (Hreach : reachable b).
  { apply (reach_step (AddBan "Culture" "Greek") initial_bans b).
    - apply (reach_step (AddBan "Culture" NA) initial_bans initial_bans).
      + apply reach_initial.
      + reflexivity.
    - vm_compute. reflexivity. }
  split; [exact Hreach |].
  exact (proj1 (sentinel_never_banned b Hreach)).
Defined.

(** C9. For attr among Artist, Culture and Century, addBan and removeBan
    succeed and leave the entry of every other name as it was: only the
    set keyed by attr can change. *)
Theorem ban_update_frame attr value prev k :
  tracked attr -> k <> attr ->
  (exists next, addBan attr value prev = Ok next /\ next !! k = prev !! k) /\
  (exists next, removeBan attr value prev = Ok next /\ next !! k = prev !! k).
Proof.
  intros Htr Hk. apply tracked_not_inherited in Htr. split.
  - unfold addBan.
    destruct (String.eqb value EmptyString || String.eqb value NA).
    + now exists prev.
    + rewrite (new_Set_of_Ok prev attr Htr). simpl. eexists. split; [reflexivity |].
      now apply lookup_insert_ne.
  - unfold removeBan. rewrite (new_Set_of_Ok prev attr Htr). simpl.
    eexists. split; [reflexivity |]. now apply lookup_insert_ne.
Qed.

Lemma ban_update_frame_witness :
  (exists next, addBan "Culture" "Greek" initial_bans = Ok next /\
                next !! "Artist" = initial_bans !! "Artist") /\
  (exists next, removeBan "Culture" "Greek" initial_bans = Ok next /\
                next !! "Artist" = initial_bans !! "Artist").
Proof.
  apply (ban_update_frame "Culture" "Greek" initial_bans "Artist").
  - right. left. reflexivity.
  - discriminate.
Defined.

(** C7, counterexample. With the attribute name Title, which is none of
    Artist, Culture and Century, addBan and removeBan do not fail: they
    return a state of the bans with a fourth entry, named Title. *)
Lemma untracked_attribute_counterexample :
  ~ tracked "Title" /\
  addBan "Title" "Vase" initial_bans
  = Ok (<["Title" := {["Vase"]}]> initial_bans) /\
  removeBan "Title" "Vase" initial_bans
  = Ok (<["Title" := ∅]> initial_bans) /\
  (<["Title" := {["Vase"]}]> initial_bans : bans_t) <> initial_bans.
Proof.
  split; [| split; [| split]].
  - intros [H | [H | H]]; discriminate H.
  - vm_compute. reflexivity.
  - vm_compute. reflexivity.
  - intros Heq. apply (f_equal (fun m : bans_t => m !! "Title")) in Heq.
    vm_compute in Heq. discriminate Heq.
Qed.

(** C7, amended. With an attribute name other than Artist, Culture and
    Century that is not a member of Object.prototype, addBan (with a value
    that is neither empty nor N/A) and removeBan succeed: they store under
    that name the name's previous set (empty when there was none) with the
    value added, respectively removed, and the entries of Artist, Culture
    and Century are unchanged. *)
Theorem untracked_attribute_accepted attr value prev :
  ~ tracked attr -> inherited attr = false ->
  (value <> EmptyString -> value <> NA ->
   addBan attr value prev = Ok (<[attr := set_at prev attr ∪ {[value]}]> prev)) /\
  removeBan attr value prev = Ok (<[attr := set_at prev attr ∖ {[value]}]> prev) /\
  (forall next k,
      addBan attr value prev = Ok next \/ removeBan attr value prev = Ok next ->
      tracked k -> next !! k = prev !! k).
Proof.
  intros Hun Hinh. split; [| split].
  - intros He Hn. rewrite addBan_unguarded by assumption.
    now rewrite (new_Set_of_Ok prev attr Hinh).
  - unfold removeBan. now rewrite (new_Set_of_Ok prev attr Hinh).
  - intros next k Hop Hk.
    assert (Hne : attr <> k) by (intros ->; contradiction).
    destruct Hop as [Hop | Hop].
    + apply addBan_inv in Hop as [-> | [_ ->]]; [reflexivity |].
      now apply lookup_insert_ne.
    + apply removeBan_inv in Hop as ->. now apply lookup_insert_ne.
Qed.

Lemma untracked_attribute_accepted_witness :
  addBan "Title" "Vase" initial_bans
  = Ok (<["Title" := set_at initial_bans "Title" ∪ {["Vase"]}]> initial_bans).
Proof.
  refine (proj1 (untracked_attribute_accepted "Title" "Vase" initial_bans _ _) _ _).
  - intros [H | [H | H]]; discriminate H.
  - reflexivity.
  - discriminate.
  - discriminate.
Defined.

End BanTheorems.

(** ** Doubles and the random index *)

Section DoubleLemmas.

Local Open Scope Q_scope.

(** Powers of two *)

Lemma pow2_pos (e : Z) : 0 < 2 ^ e.
Proof. apply Qpower_0_lt. reflexivity. Qed.

Lemma pow2_plus (a b : Z) : 2 ^ (a + b) == 2 ^ a * 2 ^ b.
Proof. apply Qpower_plus. discriminate. Qed.

Lemma pow2_le (a b : Z) : (a <= b)%Z -> 2 ^ a <= 2 ^ b.
Proof. intros H. apply Qpower_le_compat_l; [exact H | discriminate]. Qed.

Lemma pow2_lt_inv (a b : Z) : 2 ^ a < 2 ^ b -> (a < b)%Z.
Proof. intros H. apply (Qpower_lt_compat_l_inv 2); [exact H | reflexivity]. Qed.

Lemma pow2_Z (e : Z) : (0 <= e)%Z -> 2 ^ e == inject_Z (2 ^ e).
Proof. intros H. symmetry. apply (Zpower_Qpower 2 e H). Qed.

Lemma pow2_succ (e : Z) : 2 ^ (e + 1) == 2 * 2 ^ e.
Proof. rewrite pow2_plus. change (2 ^ 1) with 2. ring. Qed.

(** Rounding to the nearest integer *)

Lemma round_half_even_cases (y : Q) :
  round_half_even y = Qfloor y /\ y - inject_Z (Qfloor y) <= 1 # 2 \/
  round_half_even y = (Qfloor y + 1)%Z /\ 1 # 2 <= y - inject_Z (Qfloor y).
Proof.
  unfold round_half_even.
  destruct (Qcompare (y - inject_Z (Qfloor y)) (1 # 2)) eqn:Hc.
  - apply Qeq_alt in Hc. destruct (Z.even (Qfloor y)).
    + left. split; [reflexivity | rewrite Hc; apply Qle_refl].
    + right. split; [reflexivity | rewrite Hc; apply Qle_refl].
  - apply Qlt_alt in Hc. left. split; [reflexivity | now apply Qlt_le_weak].
  - apply Qgt_alt in Hc. right. split; [reflexivity | now apply Qlt_le_weak].
Qed.

Lemma round_half_even_near (y : Q) :
  y - (1 # 2) <= inject_Z (round_half_even y) <= y + (1 # 2).
Proof.
  pose proof (Qfloor_le y) as Hlo. pose proof (Qlt_floor y) as Hhi.
  rewrite inject_Z_plus in Hhi. change (inject_Z 1) with 1 in Hhi.
  destruct (round_half_even_cases y) as [[-> H] | [-> H]].
  - split; lra.
  - rewrite inject_Z_plus. change (inject_Z 1) with 1. split; lra.
Qed.

Lemma round_half_even_ge (y : Q) (k : Z) :
  inject_Z k <= y -> (k <= round_half_even y)%Z.
Proof.
  intros Hk.
  assert (Hf : (k <= Qfloor y)%Z).
  { rewrite <- (Qfloor_Z k). now apply Qfloor_resp_le. }
  destruct (round_half_even_cases y) as [[-> _] | [-> _]]; lia.
Qed.

Lemma round_half_even_le (y : Q) (k : Z) :
  y <= inject_Z k -> (round_half_even y <= k)%Z.
Proof.
  intros Hk.
  assert (Hf : (Qfloor y <= k)%Z).
  { rewrite <- (Qfloor_Z k). now apply Qfloor_resp_le. }
  destruct (round_half_even_cases y) as [[-> _] | [-> H]]; [exact Hf |].
  assert (Hlt : inject_Z (Qfloor y) < inject_Z k).
  { apply Qlt_le_trans with (y := y); [| exact Hk].
    apply Qlt_le_trans with (y := inject_Z (Qfloor y) + (1 # 2)).
    - rewrite <- (Qplus_0_r (inject_Z (Qfloor y))) at 1.
      apply Qplus_lt_r. reflexivity.
    - apply Qle_minus_iff in H. apply Qle_minus_iff.
      setoid_replace (y + - (inject_Z (Qfloor y) + (1 # 2)))
        with (y - inject_Z (Qfloor y) + - (1 # 2)) using relation Qeq by ring. exact H. }
  rewrite <- Zlt_Qlt in Hlt. lia.
Qed.

(** The binade *)

Lemma Q_as_quotient (x : Q) :
  x * inject_Z (Zpos (Qden x)) == inject_Z (Qnum x).
Proof. destruct x as [a b]. unfold Qeq, Qmult, inject_Z. simpl. lia. Qed.

Lemma binade_spec (x : Q) :
  0 < x -> 2 ^ binade x <= x /\ x < 2 ^ (binade x + 1).
Proof.
  intros Hx.
  assert (Habs : Qabs x == x) by (apply Qabs_pos; lra).
  assert (Ha : (0 < Qnum x)%Z).
  { destruct x as [a b]. unfold Qlt in Hx. simpl in *. lia. }
  pose proof (Q_as_quotient x) as Hq.
  set (a := Qnum x) in *. set (b := Zpos (Qden x)) in *.
  assert (Hb : (0 < b)%Z) by (subst b; lia).
  destruct (Z.log2_spec a Ha) as [Ha1 Ha2].
  destruct (Z.log2_spec b Hb) as [Hb1 Hb2].
  assert (Hla : (0 <= Z.log2 a)%Z) by apply Z.log2_nonneg.
  assert (Hlb : (0 <= Z.log2 b)%Z) by apply Z.log2_nonneg.
  rewrite <- Z.add_1_r in Ha2, Hb2.
  rewrite Zle_Qle, <- pow2_Z in Ha1, Hb1 by assumption.
  rewrite Zlt_Qlt, <- pow2_Z in Ha2, Hb2 by lia.
  assert (Hbq : 0 < inject_Z b) by (change 0 with (inject_Z 0); rewrite <- Zlt_Qlt; exact Hb).
  unfold binade. fold a. change (Z.abs a) with (Z.abs a).
  rewrite (Z.abs_eq a) by lia. fold b.
  set (d := (Z.log2 a - Z.log2 b)%Z).
  pose proof (pow2_pos (d - 1)) as Hp1. pose proof (pow2_pos d) as Hp0.
  assert (Hd1 : 2 ^ (d - 1) * 2 ^ (Z.log2 b + 1) == 2 ^ Z.log2 a).
  { rewrite <- pow2_plus. subst d. now replace (Z.log2 a - Z.log2 b - 1 + (Z.log2 b + 1))%Z
      with (Z.log2 a) by lia. }
  assert (Hd2 : 2 ^ (d + 1) * 2 ^ Z.log2 b == 2 ^ (Z.log2 a + 1)).
  { rewrite <- pow2_plus. subst d. now replace (Z.log2 a - Z.log2 b + 1 + Z.log2 b)%Z
      with (Z.log2 a + 1)%Z by lia. }
  destruct (Qle_bool (2 ^ d) (Qabs x)) eqn:Hc.
  - apply Qle_bool_iff in Hc. rewrite Habs in Hc. split; [exact Hc |].
    (* x * b = a < 2^(la+1) = 2^(d+1) * 2^lb <= 2^(d+1) * b *)
    pose proof (pow2_pos (d + 1)) as Hp2.
    apply Qnot_le_lt. intros Hge.
    assert (H1 : 2 ^ (d + 1) * inject_Z b <= x * inject_Z b).
    { apply Qmult_le_compat_r; [exact Hge | lra]. }
    assert (H2 : 2 ^ (d + 1) * 2 ^ Z.log2 b <= 2 ^ (d + 1) * inject_Z b).
    { rewrite !(Qmult_comm (2 ^ (d + 1))). apply Qmult_le_compat_r; [exact Hb1 | lra]. }
    lra.
  - assert (Hlt : x < 2 ^ d).
    { apply Qnot_le_lt. intros Hge. rewrite <- Habs in Hge.
      apply Qle_bool_iff in Hge. congruence. }
    replace (d - 1 + 1)%Z with d by lia. split; [| exact Hlt].
    apply Qnot_lt_le. intros Hlt'.
    assert (H1 : x * inject_Z b < 2 ^ (d - 1) * inject_Z b).
    { apply Qmult_lt_compat_r; assumption. }
    assert (H2 : 2 ^ (d - 1) * inject_Z b <= 2 ^ (d - 1) * 2 ^ (Z.log2 b + 1)).
    { rewrite !(Qmult_comm (2 ^ (d - 1))). apply Qmult_le_compat_r; lra. }
    lra.
Qed.

(** Rounding to a double *)

Lemma double_round_nonzero (x : Q) :
  ~ x == 0 ->
  double_round x
  = inject_Z (round_half_even (x / 2 ^ ulp_exponent x)) * 2 ^ ulp_exponent x.
Proof.
  intros Hx. unfold double_round.
  destruct (Qeq_bool x 0) eqn:H0; [| reflexivity].
  apply Qeq_bool_iff in H0. contradiction.
Qed.

Lemma double_round_zero (x : Q) : x == 0 -> double_round x = 0.
Proof.
  intros Hx. unfold double_round. apply Qeq_bool_iff in Hx. now rewrite Hx.
Qed.

Lemma scaled_back (x : Q) (e : Z) : x / 2 ^ e * 2 ^ e == x.
Proof. field. pose proof (pow2_pos e). lra. Qed.

(** The result is within half a unit in the last place. *)
Lemma double_round_near (x : Q) :
  0 < x ->
  x - 2 ^ ulp_exponent x * (1 # 2) <= double_round x
  /\ double_round x <= x + 2 ^ ulp_exponent x * (1 # 2).
Proof.
  intros Hx. rewrite double_round_nonzero by lra.
  set (e := ulp_exponent x). pose proof (pow2_pos e) as He.
  pose proof (scaled_back x e) as Hs.
  destruct (round_half_even_near (x / 2 ^ e)) as [Hlo Hhi].
  set (y := x / 2 ^ e) in *. set (k := inject_Z (round_half_even y)) in *.
  assert (H1 : (y - (1 # 2)) * 2 ^ e <= k * 2 ^ e)
    by (apply Qmult_le_compat_r; lra).
  assert (H2 : k * 2 ^ e <= (y + (1 # 2)) * 2 ^ e)
    by (apply Qmult_le_compat_r; lra).
  split; lra.
Qed.

Lemma double_round_nonneg (x : Q) : 0 <= x -> 0 <= double_round x.
Proof.
  intros Hx. destruct (Qeq_dec x 0) as [H0 | H0].
  - rewrite (double_round_zero x H0). apply Qle_refl.
  - rewrite double_round_nonzero by exact H0.
    set (e := ulp_exponent x). pose proof (pow2_pos e) as He.
    apply Qmult_le_0_compat; [| lra].
    change 0 with (inject_Z 0). rewrite <- Zle_Qle.
    apply round_half_even_ge. change (inject_Z 0) with 0.
    apply Qle_shift_div_l; [exact He | lra].
Qed.

(** The unit in the last place, relative to the value. *)
Lemma ulp_bound (x : Q) :
  0 < x ->
  2 ^ ulp_exponent x <= x * 2 ^ (-52) \/ ulp_exponent x = (-1074)%Z.
Proof.
  intros Hx. unfold ulp_exponent.
  destruct (Z.max_spec (binade x) (-1022)) as [[Hlt ->] | [Hge ->]].
  - right. reflexivity.
  - left. destruct (binade_spec x Hx) as [Hlo _].
    replace (binade x - 52)%Z with (binade x + -52)%Z by lia.
    rewrite pow2_plus. apply Qmult_le_compat_r; [exact Hlo |].
    apply Qlt_le_weak, pow2_pos.
Qed.

Lemma ulp_exponent_nonpos (x : Q) :
  0 < x -> x < 2 ^ 53 -> (ulp_exponent x <= 0)%Z.
Proof.
  intros Hx Hlt. destruct (binade_spec x Hx) as [Hlo _].
  assert (Hb : (binade x < 53)%Z).
  { apply pow2_lt_inv. eapply Qle_lt_trans; eassumption. }
  unfold ulp_exponent. lia.
Qed.

Lemma int_scaled (k e : Z) :
  (e <= 0)%Z -> inject_Z k / 2 ^ e == inject_Z (k * 2 ^ (- e)).
Proof.
  intros He. rewrite inject_Z_mult, <- pow2_Z by lia.
  rewrite Qpower_opp. reflexivity.
Qed.

(** Integers below 2^53 are doubles, and rounding is monotone: an integer
    bound on the value is a bound on the rounded value. *)
Lemma double_round_ge_int (x : Q) (k : Z) :
  0 < x -> x < 2 ^ 53 -> inject_Z k <= x -> inject_Z k <= double_round x.
Proof.
  intros Hx Hlt Hk. rewrite double_round_nonzero by lra.
  pose proof (ulp_exponent_nonpos x Hx Hlt) as He.
  set (e := ulp_exponent x) in *. pose proof (pow2_pos e) as Hp.
  assert (Hy : inject_Z (k * 2 ^ (- e)) <= x / 2 ^ e).
  { rewrite <- int_scaled by exact He.
    apply Qmult_le_compat_r; [exact Hk |]. apply Qlt_le_weak, Qinv_lt_0_compat, Hp. }
  apply round_half_even_ge in Hy. rewrite Zle_Qle in Hy.
  rewrite <- int_scaled in Hy by exact He.
  apply (Qmult_le_compat_r _ _ (2 ^ e)) in Hy; [| lra].
  rewrite scaled_back in Hy. exact Hy.
Qed.

Lemma double_round_le_int (x : Q) (k : Z) :
  0 < x -> x < 2 ^ 53 -> x <= inject_Z k -> double_round x <= inject_Z k.
Proof.
  intros Hx Hlt Hk. rewrite double_round_nonzero by lra.
  pose proof (ulp_exponent_nonpos x Hx Hlt) as He.
  set (e := ulp_exponent x) in *. pose proof (pow2_pos e) as Hp.
  assert (Hy : x / 2 ^ e <= inject_Z (k * 2 ^ (- e))).
  { rewrite <- int_scaled by exact He.
    apply Qmult_le_compat_r; [exact Hk |]. apply Qlt_le_weak, Qinv_lt_0_compat, Hp. }
  apply round_half_even_le in Hy. rewrite Zle_Qle in Hy.
  rewrite <- int_scaled in Hy by exact He.
  apply (Qmult_le_compat_r _ _ (2 ^ e)) in Hy; [| lra].
  rewrite scaled_back in Hy. exact Hy.
Qed.

(** The largest double below 1 is 1 - 2^-53. *)
Lemma double_below_one (d : double) : d < 1 -> d <= 1 - 2 ^ (-53).
Proof.
  destruct d as [m e Hok]. unfold double_val. simpl. intros Hlt.
  apply andb_prop in Hok as [Hok He2]. apply andb_prop in Hok as [Hm He1].
  apply Z.ltb_lt in Hm. apply Z.leb_le in He1, He2.
  pose proof (pow2_pos e) as Hp.
  destruct (Z_le_gt_dec (-53) e) as [He | He].
  - assert (Heq : inject_Z m * 2 ^ e == inject_Z (m * 2 ^ (e + 53)) * 2 ^ (-53)).
    { rewrite inject_Z_mult, <- pow2_Z by lia.
      rewrite <- Qmult_assoc, <- pow2_plus.
      now replace (e + 53 + -53)%Z with e by lia. }
    rewrite Heq in Hlt |- *.
    assert (Hone : 1 == inject_Z (2 ^ 53) * 2 ^ (-53)) by reflexivity.
    assert (HM : (m * 2 ^ (e + 53) < 2 ^ 53)%Z).
    { rewrite Zlt_Qlt. apply Qnot_le_lt. intros Hge.
      apply (Qmult_le_compat_r _ _ (2 ^ (-53))) in Hge;
        [| apply Qlt_le_weak, pow2_pos].
      rewrite <- Hone in Hge. lra. }
    assert (HM' : inject_Z (m * 2 ^ (e + 53)) <= inject_Z (2 ^ 53 - 1))
      by (rewrite <- Zle_Qle; lia).
    apply (Qmult_le_compat_r _ _ (2 ^ (-53))) in HM';
      [| apply Qlt_le_weak, pow2_pos].
    assert (Hlast : inject_Z (2 ^ 53 - 1) * 2 ^ (-53) == 1 - 2 ^ (-53))
      by reflexivity.
    rewrite Hlast in HM'. exact HM'.
  - assert (Hm' : inject_Z m <= inject_Z (2 ^ 53)) by (rewrite <- Zle_Qle; lia).
    apply (Qmult_le_compat_r _ _ (2 ^ e)) in Hm'; [| lra].
    assert (Hpe : 2 ^ e <= 2 ^ (-54)) by (apply pow2_le; lia).
    assert (Hhalf : inject_Z (2 ^ 53) * 2 ^ e <= inject_Z (2 ^ 53) * 2 ^ (-54)).
    { rewrite !(Qmult_comm (inject_Z (2 ^ 53))).
      apply Qmult_le_compat_r; [exact Hpe | discriminate]. }
    assert (Hc : inject_Z (2 ^ 53) * 2 ^ (-54) <= 1 - 2 ^ (-53)) by discriminate.
    exact (Qle_trans _ _ _ Hm' (Qle_trans _ _ _ Hhalf Hc)).
Qed.

(** The double product of a value below 1 and a positive integer is below
    the integer. *)
Lemma product_below (r : Q) (n : Z) :
  0 <= r -> r <= 1 - 2 ^ (-53) -> (1 <= n)%Z ->
  double_round (r * inject_Z n) < inject_Z n.
Proof.
  intros Hlo Hhi Hn.
  assert (Hnq : 1 <= inject_Z n) by (change 1 with (inject_Z 1); now rewrite <- Zle_Qle).
  set (N := inject_Z n) in *. set (x := r * N).
  set (t := 2 ^ (-53)) in *.
  assert (Ht : 0 < t) by apply pow2_pos.
  assert (Hx : x <= N - N * t).
  { unfold x. setoid_replace (N - N * t) with ((1 - t) * N) using relation Qeq by ring.
    apply Qmult_le_compat_r; lra. }
  destruct (Qeq_dec x 0) as [H0 | H0].
  { rewrite (double_round_zero x H0). lra. }
  assert (Hxpos : 0 < x).
  { assert (0 <= x) by (unfold x; apply Qmult_le_0_compat; lra).
    destruct (Qlt_le_dec 0 x) as [? | Hle]; [assumption |].
    exfalso. apply H0. lra. }
  destruct (double_round_near x Hxpos) as [_ Hnear].
  destruct (ulp_bound x Hxpos) as [Hu | Hu].
  - assert (Hu' : 2 ^ ulp_exponent x * (1 # 2) <= x * t).
    { apply (Qmult_le_compat_r _ _ (1 # 2)) in Hu; [| discriminate].
      setoid_replace (x * 2 ^ (-52) * (1 # 2)) with (x * (2 ^ (-52) * (1 # 2))) using relation Qeq in Hu
        by ring.
      exact Hu. }
    assert (Hxt : x * t <= (N - N * t) * t) by (apply Qmult_le_compat_r; lra).
    assert (Hntt : 0 < N * t * t).
    { apply Qmult_lt_0_compat; [apply Qmult_lt_0_compat |]; lra. }
    lra.
  - rewrite Hu in Hnear.
    assert (Hs : 2 ^ (-1074) * (1 # 2) < t).
    { apply Qlt_le_trans with (y := 2 ^ (-1074)).
      - pose proof (pow2_pos (-1074)). lra.
      - apply pow2_le. lia. }
    assert (HNt : t <= N * t).
    { rewrite <- (Qmult_1_l t) at 1. apply Qmult_le_compat_r; lra. }
    lra.
Qed.

(** The rounding error of the product is at most n * 2^-53. *)
Lemma product_error (x : Q) (n : Z) :
  0 < x -> x <= inject_Z n -> (1 <= n)%Z ->
  x - inject_Z n * 2 ^ (-53) <= double_round x
  /\ double_round x <= x + inject_Z n * 2 ^ (-53).
Proof.
  intros Hx Hxn Hn.
  assert (Hnq : 1 <= inject_Z n) by (change 1 with (inject_Z 1); now rewrite <- Zle_Qle).
  set (N := inject_Z n) in *. set (t := 2 ^ (-53)) in *.
  assert (Ht : 0 < t) by apply pow2_pos.
  destruct (double_round_near x Hx) as [Hlo Hhi].
  assert (Herr : 2 ^ ulp_exponent x * (1 # 2) <= N * t).
  { destruct (ulp_bound x Hx) as [Hu | Hu].
    - apply (Qmult_le_compat_r _ _ (1 # 2)) in Hu; [| discriminate].
      setoid_replace (x * 2 ^ (-52) * (1 # 2)) with (x * (2 ^ (-52) * (1 # 2))) using relation Qeq in Hu
        by ring.
      change (2 ^ (-52) * (1 # 2)) with (2 ^ (-52) * (1 # 2)) in Hu.
      assert (Hxt : x * t <= N * t) by (apply Qmult_le_compat_r; lra).
      assert (Hc : 2 ^ (-52) * (1 # 2) == t) by reflexivity.
      rewrite Hc in Hu. lra.
    - rewrite Hu.
      assert (Hs : 2 ^ (-1074) * (1 # 2) <= t).
      { apply Qle_trans with (y := 2 ^ (-1074)).
        - pose proof (pow2_pos (-1074)). lra.
        - apply pow2_le. lia. }
      assert (HNt : t <= N * t).
      { rewrite <- (Qmult_1_l t) at 1. apply Qmult_le_compat_r; lra. }
      lra. }
  split; lra.
Qed.

(** The random index *)

Lemma random_index_range (random : double) (n : nat) :
  0 <= random -> random < 1 -> (0 < n)%nat ->
  (0 <= random_index random n < Z.of_nat n)%Z.
Proof.
  intros Hlo Hhi Hn. unfold random_index.
  assert (Hnq : 0 <= inject_Z (Z.of_nat n)).
  { change 0 with (inject_Z 0). rewrite <- Zle_Qle. lia. }
  split.
  - change 0%Z with (Qfloor 0). apply Qfloor_resp_le, double_round_nonneg.
    now apply Qmult_le_0_compat.
  - rewrite Zlt_Qlt. eapply Qle_lt_trans; [apply Qfloor_le |].
    apply product_below; [exact Hlo | now apply double_below_one | lia].
Qed.

Lemma product_range (q : Q) (n : Z) :
  0 <= q -> q <= 1 - 2 ^ (-53) -> (1 <= n)%Z ->
  0 <= q * inject_Z n /\ q * inject_Z n < inject_Z n.
Proof.
  intros Hlo Hhi Hn.
  assert (Hnq : 1 <= inject_Z n) by (change 1 with (inject_Z 1); now rewrite <- Zle_Qle).
  pose proof (pow2_pos (-53)) as Ht. split.
  - apply Qmult_le_0_compat; lra.
  - rewrite <- (Qmult_1_l (inject_Z n)) at 2.
    apply Qmult_lt_compat_r; lra.
Qed.

(** An integer bound on the exact product is a bound on the index. *)
Lemma random_index_ge (q : Q) (n : nat) (j : Z) :
  0 <= q -> q <= 1 - 2 ^ (-53) -> (0 < n)%nat -> (Z.of_nat n <= 2 ^ 53)%Z ->
  inject_Z j <= q * inject_Z (Z.of_nat n) -> (j <= random_index q n)%Z.
Proof.
  intros Hlo Hhi Hn Hbig Hj. unfold random_index.
  destruct (product_range q (Z.of_nat n) Hlo Hhi ltac:(lia)) as [Hx0 Hxn].
  set (x := q * inject_Z (Z.of_nat n)) in *.
  rewrite <- (Qfloor_Z j). apply Qfloor_resp_le.
  destruct (Qeq_dec x 0) as [H0 | H0].
  - rewrite (double_round_zero x H0). lra.
  - apply double_round_ge_int; [| | exact Hj].
    + destruct (Qlt_le_dec 0 x) as [? | Hle]; [assumption |].
      exfalso. apply H0. lra.
    + eapply Qlt_le_trans; [exact Hxn |].
      rewrite (pow2_Z 53) by lia. rewrite <- Zle_Qle. exact Hbig.
Qed.

Lemma random_index_le (q : Q) (n : nat) (j : Z) :
  0 <= q -> q <= 1 - 2 ^ (-53) -> (0 < n)%nat -> (Z.of_nat n <= 2 ^ 53)%Z ->
  q * inject_Z (Z.of_nat n) <= inject_Z j -> (random_index q n <= j)%Z.
Proof.
  intros Hlo Hhi Hn Hbig Hj. unfold random_index.
  destruct (product_range q (Z.of_nat n) Hlo Hhi ltac:(lia)) as [Hx0 Hxn].
  set (x := q * inject_Z (Z.of_nat n)) in *.
  rewrite <- (Qfloor_Z j). apply Qfloor_resp_le.
  destruct (Qeq_dec x 0) as [H0 | H0].
  - rewrite (double_round_zero x H0). lra.
  - apply double_round_le_int; [| | exact Hj].
    + destruct (Qlt_le_dec 0 x) as [? | Hle]; [assumption |].
      exfalso. apply H0. lra.
    + eapply Qlt_le_trans; [exact Hxn |].
      rewrite (pow2_Z 53) by lia. rewrite <- Zle_Qle. exact Hbig.
Qed.

(** The index is the floor of the exact product, or one more. *)
Lemma random_index_near_floor (q : Q) (n : nat) :
  0 <= q -> q <= 1 - 2 ^ (-53) -> (0 < n)%nat -> (Z.of_nat n <= 2 ^ 53)%Z ->
  (Qfloor (q * inject_Z (Z.of_nat n)) <= random_index q n
   <= Qfloor (q * inject_Z (Z.of_nat n)) + 1)%Z.
Proof.
  intros Hlo Hhi Hn Hbig. split.
  - apply random_index_ge; try assumption. apply Qfloor_le.
  - apply random_index_le; try assumption. apply Qlt_le_weak, Qlt_floor.
Qed.

(** The share of index j: all of [j/n, (j+1)/n - 2^-53) and nothing outside
    [j/n - 2^-53, (j+1)/n). *)
Lemma random_index_share (q : Q) (n : nat) (j : Z) :
  0 <= q -> q <= 1 - 2 ^ (-53) -> (0 < n)%nat -> (Z.of_nat n <= 2 ^ 53)%Z ->
  (inject_Z j / inject_Z (Z.of_nat n) <= q ->
   q < inject_Z (j + 1) / inject_Z (Z.of_nat n) - 2 ^ (-53) ->
   random_index q n = j) /\
  (random_index q n = j ->
   inject_Z j / inject_Z (Z.of_nat n) - 2 ^ (-53) <= q /\
   q < inject_Z (j + 1) / inject_Z (Z.of_nat n)).
Proof.
  intros Hlo Hhi Hn Hbig.
  destruct (product_range q (Z.of_nat n) Hlo Hhi ltac:(lia)) as [Hx0 Hxn].
  assert (HN : 0 < inject_Z (Z.of_nat n)).
  { change 0 with (inject_Z 0). rewrite <- Zlt_Qlt. lia. }
  set (N := inject_Z (Z.of_nat n)) in *. set (t := 2 ^ (-53)) in *.
  assert (Ht : 0 < t) by apply pow2_pos.
  assert (Hdiv : forall y, y / N * N == y) by (intros y; field; lra).
  assert (Herr : q * N - N * t <= double_round (q * N)
                 /\ double_round (q * N) <= q * N + N * t).
  { destruct (Qeq_dec (q * N) 0) as [H0 | H0].
    - rewrite (double_round_zero _ H0).
      assert (0 < N * t) by (apply Qmult_lt_0_compat; lra). split; lra.
    - apply product_error; [| apply Qlt_le_weak; exact Hxn | lia].
      destruct (Qlt_le_dec 0 (q * N)) as [? | Hle]; [assumption |].
      exfalso. apply H0. lra. }
  destruct Herr as [Herr1 Herr2].
  split.
  - intros Hj1 Hj2. apply Z.le_antisymm.
    + apply Z.lt_succ_r. rewrite <- Z.add_1_r. rewrite Zlt_Qlt.
      unfold random_index. fold N.
      eapply Qle_lt_trans; [apply Qfloor_le |].
      apply (Qmult_lt_compat_r _ _ N) in Hj2; [| exact HN].
      setoid_replace ((inject_Z (j + 1) / N - t) * N)
        with (inject_Z (j + 1) / N * N - N * t) using relation Qeq in Hj2 by ring.
      rewrite Hdiv in Hj2. lra.
    + apply random_index_ge; try assumption. fold N.
      apply (Qmult_le_compat_r _ _ N) in Hj1; [| lra].
      rewrite Hdiv in Hj1. exact Hj1.
  - intros Hidx. split.
    + assert (Hfl : inject_Z j <= double_round (q * N)).
      { rewrite <- Hidx. unfold random_index. fold N. apply Qfloor_le. }
      apply (Qmult_le_r _ _ N HN).
      setoid_replace ((inject_Z j / N - t) * N)
        with (inject_Z j / N * N - N * t) using relation Qeq by ring.
      rewrite Hdiv. lra.
    + apply (Qmult_lt_r _ _ N HN). rewrite Hdiv.
      apply Qnot_le_lt. intros Hge.
      assert (Hup : (j + 1 <= random_index q n)%Z)
        by (apply random_index_ge; assumption).
      lia.
Qed.

(** [double_round] against the Standard Library's specification of the
    IEEE 754 product: on 0.3333333333333333 * 3 and 0.6666666666666666 * 3,
    which round up to 1 and 2; on the mantissas from 2^52 on with 3, every
    second of which is a tie; on the largest random value; on subnormal
    numbers; and on mantissas spread over a binade with several lengths. *)
Example double_round_agrees :
  agrees 6004799503160661 (-54) 3 = true /\
  agrees 6004799503160661 (-53) 3 = true /\
  agrees 2573485501354569 (-52) 7 = true /\
  forallb (fun k => agrees (2 ^ 52 + Z.of_nat k) (-53) 3) (seq 0 200) = true /\
  forallb (fun n => agrees (2 ^ 53 - 1) (-53) n) (seq 1 200) = true /\
  forallb (fun n => agrees 3 (-1074) n) (seq 1 50) = true /\
  forallb (fun k =>
             forallb (agrees (2 ^ 52 + Z.of_nat k * 22517998136852%Z + 1) (-53))
                     [1; 3; 5; 6; 7; 10; 50; 99; 100]%nat)
          (seq 0 150) = true.
Proof. repeat split; vm_compute; reflexivity. Qed.

Example double_product_rounds_up :
  (double_round (third * 3) == 1)%Q /\
  SF_product (mantissa third) (exponent third) 3 == 1 /\
  ~ third * 3 == 1.
Proof. repeat split; vm_compute; discriminate. Qed.

End DoubleLemmas.

(** ** The filter *)

Section Filter.

Implicit Types (b : bans_t) (r pick : value) (l el : list value).

Lemma has_inv b k x res :
  has b k x = Ok res -> exists s, b !! k = Some s /\ res = bool_decide (x ∈ s).
Proof.
  unfold has. destruct (b !! k) as [s |]; [| discriminate].
  intros [= <-]. now exists s.
Qed.

Lemma keep_inv b r kept :
  keep b r = Ok kept ->
  exists a cu ce, ban_keys r = Ok (a, cu, ce) /\
    (kept = true ->
     exists sA sCu sCe,
       b !! "Artist" = Some sA /\ b !! "Culture" = Some sCu /\
       b !! "Century" = Some sCe /\ (a ∉ sA) /\ (cu ∉ sCu) /\ (ce ∉ sCe)).
Proof.
  unfold keep, ban_keys.
  destruct (artistOf r) as [a |]; simpl; [| discriminate].
  destruct (safe (opt_prop r "culture")) as [cu |]; simpl; [| discriminate].
  destruct (safe (opt_prop r "century")) as [ce |]; simpl; [| discriminate].
  intros Hkeep. exists a, cu, ce. split; [reflexivity |]. intros ->.
  destruct (has b "Artist" a) as [ra |] eqn:HA; simpl in Hkeep; [| discriminate].
  apply has_inv in HA as (sA & HsA & ->).
  destruct (bool_decide (a ∈ sA)) eqn:Ha; [discriminate |].
  destruct (has b "Culture" cu) as [rcu |] eqn:HCu; simpl in Hkeep; [| discriminate].
  apply has_inv in HCu as (sCu & HsCu & ->).
  destruct (bool_decide (cu ∈ sCu)) eqn:Hcu; [discriminate |].
  destruct (has b "Century" ce) as [rce |] eqn:HCe; simpl in Hkeep; [| discriminate].
  apply has_inv in HCe as (sCe & HsCe & ->).
  destruct (bool_decide (ce ∈ sCe)) eqn:Hce; [discriminate |].
  apply bool_decide_eq_false in Ha, Hcu, Hce.
  exists sA, sCu, sCe. repeat split; assumption.
Qed.

Lemma keep_unbanned b r a cu ce sA sCu sCe :
  ban_keys r = Ok (a, cu, ce) ->
  b !! "Artist" = Some sA -> b !! "Culture" = Some sCu ->
  b !! "Century" = Some sCe ->
  keep b r = Ok (negb (bool_decide (a ∈ sA) || bool_decide (cu ∈ sCu)
                       || bool_decide (ce ∈ sCe))).
Proof.
  unfold keep, ban_keys, has.
  destruct (artistOf r) as [a' |]; simpl; [| discriminate].
  destruct (safe (opt_prop r "culture")) as [cu' |]; simpl; [| discriminate].
  destruct (safe (opt_prop r "century")) as [ce' |]; simpl; [| discriminate].
  intros [= -> -> ->] -> -> ->. simpl.
  destruct (bool_decide (a ∈ sA)); simpl; [reflexivity |].
  destruct (bool_decide (cu ∈ sCu)); simpl; [reflexivity |].
  now destruct (bool_decide (ce ∈ sCe)).
Qed.

Lemma filter_array_elem (f : value -> result bool) l el :
  filter_array f l = Ok el ->
  forall x, x ∈ el -> x ∈ l /\ f x = Ok true.
Proof.
  revert el. induction l as [| y l IH]; simpl; intros el Hf x Hx.
  - injection Hf as <-. now apply not_elem_of_nil in Hx.
  - destruct (f y) as [kept |] eqn:Hy; simpl in Hf; [| discriminate].
    destruct (filter_array f l) as [tail |]; simpl in Hf; [| discriminate].
    injection Hf as <-. destruct kept.
    + apply elem_of_cons in Hx as [-> | Hx].
      * split; [apply list_elem_of_here | exact Hy].
      * destruct (IH tail eq_refl x Hx) as [Hin Hfx].
        split; [now apply list_elem_of_further | exact Hfx].
    + destruct (IH tail eq_refl x Hx) as [Hin Hfx].
      split; [now apply list_elem_of_further | exact Hfx].
Qed.

Lemma filter_array_all (f : value -> result bool) l :
  Forall (fun x => f x = Ok true) l -> filter_array f l = Ok l.
Proof.
  induction 1 as [| x l Hx _ IH]; simpl; [reflexivity |].
  now rewrite Hx, IH.
Qed.

Lemma filter_array_total (f : value -> result bool) l :
  Forall (fun x => is_Ok (f x) = true) l ->
  exists el, filter_array f l = Ok el.
Proof.
  induction 1 as [| x l Hx _ [el IH]]; simpl; [now exists [] |].
  destruct (f x) as [kept |]; [| discriminate]. rewrite IH. simpl. eauto.
Qed.

Lemma filter_array_nil_iff (f : value -> result bool) l :
  filter_array f l = Ok [] <-> Forall (fun x => f x = Ok false) l.
Proof.
  induction l as [| y l IH]; simpl.
  - split; [constructor | reflexivity].
  - split.
    + destruct (f y) as [kept |] eqn:Hy; simpl; [| discriminate].
      destruct (filter_array f l) as [tail |]; simpl; [| discriminate].
      destruct kept; [discriminate |]. intros [= ->].
      constructor; [exact Hy | now apply IH].
    + intros Hall. inversion Hall as [| ? ? Hy Hl]; subst.
      rewrite Hy. apply IH in Hl. now rewrite Hl.
Qed.

(** The fields of the displayed record and the strings the filter saw. *)
Lemma inputs_of_inv pick v :
  inputs_of pick = Ok v ->
  nullish pick = false /\ ban_keys pick = Ok (Artist v, Culture v, Century v).
Proof.
  unfold inputs_of, get_prop, ban_keys, opt_prop.
  destruct (nullish pick); simpl; [discriminate |].
  destruct (artistOf pick) as [a |]; simpl; [| discriminate].
  destruct (safe (prop pick "culture")) as [cu |]; simpl; [| discriminate].
  destruct (safe (prop pick "century")) as [ce |]; simpl; [| discriminate].
  now intros [= <-].
Qed.

Lemma inputs_of_Ok pick a cu ce :
  nullish pick = false -> ban_keys pick = Ok (a, cu, ce) ->
  inputs_of pick
  = Ok {| Title := js_or (prop pick "title") (VStr NA);
          Artist := a; Culture := cu; Century := ce;
          Date := js_or (prop pick "dated") (VStr NA);
          Medium := js_or (prop pick "medium") (VStr NA);
          Image := js_or (prop pick "primaryimageurl") (VStr EmptyString) |}.
Proof.
  unfold inputs_of, get_prop, ban_keys, opt_prop. intros ->. simpl.
  destruct (artistOf pick) as [a' |]; simpl; [| discriminate].
  destruct (safe (prop pick "culture")) as [cu' |]; simpl; [| discriminate].
  destruct (safe (prop pick "century")) as [ce' |]; simpl; [| discriminate].
  now intros [= -> -> ->].
Qed.

Lemma at_index_nat el (i : nat) :
  at_index el (Z.of_nat i) = default VUndef (el !! i).
Proof.
  unfold at_index. destruct (Z.ltb_spec (Z.of_nat i) 0); [lia |].
  now rewrite Nat2Z.id.
Qed.

Lemma at_index_elem el z :
  nullish (at_index el z) = false -> at_index el z ∈ el.
Proof.
  unfold at_index. destruct (z <? 0)%Z; [discriminate |].
  destruct (el !! Z.to_nat z) as [p |] eqn:Hp; simpl; [| discriminate].
  intros _. now apply list_elem_of_lookup_2 in Hp.
Qed.

End Filter.

(** ** The selector *)

Section Selector.

Implicit Types (b : bans_t) (r pick response : value) (l el : list value).

Lemma raw_record_inv r :
  raw_record r = true ->
  nullish r = false /\ exists a cu ce, ban_keys r = Ok (a, cu, ce).
Proof.
  destruct r; try discriminate. simpl.
  destruct (ban_keys (VObj props)) as [[[a cu] ce] |]; [| discriminate].
  intros _. split; [reflexivity |]. now exists a, cu, ce.
Qed.

Lemma select_unfold b response random el :
  eligible b (artworks response) = Ok el ->
  select b response random
  = if (length el =? 0)%nat then Ok EmptyResult
    else let* v := inputs_of (at_index el (random_index random (length el))) in
         Ok (Shown v).
Proof. intros Hel. unfold select. now rewrite Hel. Qed.

Lemma select_Ok_inv b response random sel :
  select b response random = Ok sel ->
  exists el, eligible b (artworks response) = Ok el.
Proof.
  unfold select. destruct (eligible b (artworks response)) as [el |]; simpl;
    [eauto | discriminate].
Qed.

Lemma select_Shown_inv b response random v :
  select b response random = Ok (Shown v) ->
  exists el pick,
    eligible b (artworks response) = Ok el /\ pick ∈ el /\
    pick = at_index el (random_index random (length el)) /\
    inputs_of pick = Ok v.
Proof.
  intros Hsel. destruct (select_Ok_inv _ _ _ _ Hsel) as [el Hel].
  rewrite (select_unfold _ _ _ _ Hel) in Hsel.
  destruct (length el =? 0)%nat; [discriminate |].
  destruct (inputs_of _) as [v' |] eqn:Hv; simpl in Hsel; [| discriminate].
  injection Hsel as ->. eexists el, _. repeat split; [exact Hel | | exact Hv].
  apply at_index_elem. now apply inputs_of_inv in Hv as [Hn _].
Qed.

Lemma eligible_elem b arts el x :
  eligible b arts = Ok el -> x ∈ el ->
  keep b x = Ok true /\ exists l, arts = VArr l /\ x ∈ l.
Proof.
  destruct arts; try discriminate. simpl. intros Hf Hx.
  destruct (filter_array_elem _ _ _ Hf x Hx) as [Hin Hk]. eauto.
Qed.

Lemma keep_clearBans prev r :
  keep (clearBans prev) r = let* _ := ban_keys r in Ok true.
Proof.
  destruct (ban_keys r) as [[[a cu] ce] |] eqn:Hk; simpl.
  - now rewrite (keep_unbanned (clearBans prev) r a cu ce ∅ ∅ ∅ Hk).
  - unfold keep. unfold ban_keys in Hk.
    destruct (artistOf r); simpl in *; [| congruence].
    destruct (safe (opt_prop r "culture")); simpl in *; [| congruence].
    destruct (safe (opt_prop r "century")); simpl in *; [discriminate | congruence].
Qed.

Lemma filter_array_keep_all (f : value -> result bool) l el :
  (forall x kept, f x = Ok kept -> kept = true) ->
  filter_array f l = Ok el -> el = l.
Proof.
  intros Hf. revert el. induction l as [| y l IH]; simpl; intros el.
  - now intros [= <-].
  - destruct (f y) as [kept |] eqn:Hy; simpl; [| discriminate].
    destruct (filter_array f l) as [tail |]; simpl; [| discriminate].
    rewrite (Hf y kept Hy). intros [= <-]. now rewrite (IH tail eq_refl).
Qed.

End Selector.

Section SelectorTheorems.

Implicit Types (b : bans_t) (r pick response : value) (l el : list value).

(** C1. Whatever the bans and the fetched batch, when the selector returns
    a record, the three ban sets exist and the record's artist, culture and
    century are in none of them; and a record of which the artist, the
    culture or the century is banned is not in the retained list. *)
Theorem selected_record_avoids_bans b response random :
  (forall v,
      select b response random = Ok (Shown v) ->
      exists sA sCu sCe,
        b !! "Artist" = Some sA /\ b !! "Culture" = Some sCu /\
        b !! "Century" = Some sCe /\
        (Artist v ∉ sA) /\ (Culture v ∉ sCu) /\ (Century v ∉ sCe)) /\
  (forall el r a cu ce,
      eligible b (artworks response) = Ok el ->
      ban_keys r = Ok (a, cu, ce) ->
      a ∈ set_at b "Artist" \/ cu ∈ set_at b "Culture" \/
      ce ∈ set_at b "Century" ->
      r ∉ el).
Proof.
  split.
  - intros v Hsel.
    destruct (select_Shown_inv _ _ _ _ Hsel) as (el & pick & Hel & Hin & _ & Hv).
    destruct (eligible_elem _ _ _ _ Hel Hin) as [Hkeep _].
    apply inputs_of_inv in Hv as [_ Hkeys].
    destruct (keep_inv _ _ _ Hkeep) as (a & cu & ce & Hkeys' & Hsets).
    rewrite Hkeys in Hkeys'. injection Hkeys' as <- <- <-.
    now apply Hsets.
  - intros el r a cu ce Hel Hkeys Hbanned Hin.
    destruct (eligible_elem _ _ _ _ Hel Hin) as [Hkeep _].
    destruct (keep_inv _ _ _ Hkeep) as (a' & cu' & ce' & Hkeys' & Hsets).
    rewrite Hkeys in Hkeys'. injection Hkeys' as <- <- <-.
    destruct (Hsets eq_refl) as (sA & sCu & sCe & HA & HCu & HCe & Ha & Hcu & Hce).
    unfold set_at in Hbanned. rewrite HA, HCu, HCe in Hbanned. simpl in Hbanned.
    tauto.
Qed.

Lemma selected_record_avoids_bans_witness :
  let b : bans_t := <["Culture" := {["Roman"]}]> initial_bans in
  (exists sA sCu sCe,
      b !! "Artist" = Some sA /\ b !! "Culture" = Some sCu /\
      b !! "Century" = Some sCe /\
      ("Unknown" ∉ sA) /\ ("Greek" ∉ sCu) /\ ("5th century B.C." ∉ sCe)) /\
  amphora ∉ [vase].
Proof.
  intros b.
  destruct (selected_record_avoids_bans b (response_of [vase; amphora]) half)
    as [Hshown Hbanned].
  split.
  - apply (Hshown {| Title := VStr "Vase"; Artist := "Unknown";
                     Culture := "Greek"; Century := "5th century B.C.";
                     Date := VStr "450 BC"; Medium := VStr "Clay";
                     Image := VStr "http://x/1.jpg" |}).
    vm_compute. reflexivity.
  - apply (Hbanned [vase] amphora "Exekias" "Roman" NA).
    + vm_compute. reflexivity.
    + vm_compute. reflexivity.
    + right. left. vm_compute. reflexivity.
Defined.

Lemma select_pick b response (random : double) el :
  eligible b (artworks response) = Ok el -> el <> [] ->
  (0 <= random)%Q -> (random < 1)%Q ->
  exists (i : nat) pick,
    random_index random (length el) = Z.of_nat i /\ (i < length el)%nat /\
    el !! i = Some pick /\
    select b response random = (let* v := inputs_of pick in Ok (Shown v)).
Proof.
  intros Hel Hne Hlo Hhi.
  assert (Hlen : (0 < length el)%nat) by (destruct el; [congruence | simpl; lia]).
  destruct (random_index_range random (length el) Hlo Hhi Hlen) as [H0 Hn].
  exists (Z.to_nat (random_index random (length el))).
  destruct (lookup_lt_is_Some_2 el (Z.to_nat (random_index random (length el))))
    as [pick Hpick]; [lia |].
  exists pick. rewrite Z2Nat.id by exact H0.
  repeat split; [lia | exact Hpick |].
  rewrite (select_unfold _ _ _ _ Hel).
  destruct (Nat.eqb_spec (length el) 0) as [Hz | _]; [lia |].
  rewrite <- (Z2Nat.id _ H0) at 1. rewrite at_index_nat, Hpick. reflexivity.
Qed.

(** The fields of the displayed record, one by one. *)
Lemma inputs_of_fields pick v :
  inputs_of pick = Ok v ->
  Title v = js_or (prop pick "title") (VStr NA) /\
  artistOf pick = Ok (Artist v) /\
  safe (prop pick "culture") = Ok (Culture v) /\
  safe (prop pick "century") = Ok (Century v) /\
  Date v = js_or (prop pick "dated") (VStr NA) /\
  Medium v = js_or (prop pick "medium") (VStr NA) /\
  Image v = js_or (prop pick "primaryimageurl") (VStr EmptyString).
Proof.
  unfold inputs_of, get_prop.
  destruct (nullish pick); simpl; [discriminate |].
  destruct (artistOf pick) as [a |]; simpl; [| discriminate].
  destruct (safe (prop pick "culture")) as [cu |]; simpl; [| discriminate].
  destruct (safe (prop pick "century")) as [ce |]; simpl; [| discriminate].
  intros [= <-]. simpl. repeat split.
Qed.

(** C2, counterexample. With three retained records and the random value
    0.3333333333333333, a double below 1/3, floor(r * n) is 0 and r lies in
    the interval from 0/3 to 1/3; but the double product of r and 3 is
    exactly 1, so the code displays the record at index 1, not the one at
    index 0. *)
Lemma third_picks_second :
  (0 <= third)%Q /\ (third < 1)%Q /\
  eligible initial_bans (artworks (response_of [vase; amphora; amphora]))
  = Ok [vase; amphora; amphora] /\
  Qfloor (third * inject_Z 3) = 0%Z /\
  (inject_Z 0 / inject_Z 3 <= third /\ third < inject_Z 1 / inject_Z 3)%Q /\
  random_index third 3 = 1%Z /\
  select initial_bans (response_of [vase; amphora; amphora]) third
  = (let* v := inputs_of amphora in Ok (Shown v)) /\
  inputs_of amphora <> inputs_of vase.
Proof.
  split; [unfold Qle; vm_compute; discriminate |].
  split; [reflexivity |].
  split; [vm_compute; reflexivity |].
  split; [vm_compute; reflexivity |].
  split; [split; [unfold Qle; vm_compute; discriminate | reflexivity] |].
  split; [vm_compute; reflexivity |].
  split; [vm_compute; reflexivity |].
  vm_compute. discriminate.
Qed.

(** C2, amended. When the retained list has n > 0 elements and the random
    value is a double in [0,1), the pick is the element at the index
    floor(r (x) n), where (x) is the product of doubles, rounded to nearest;
    this index is below n, and the selector returns the displayed form of
    that element, field by field (it does return one when the element is
    not null). For n at most 2^32 the index is floor(r * n) or one more,
    and the index is j for every r from j/n up to (j+1)/n - 2^-53 and for
    no r below j/n - 2^-53 or from (j+1)/n on: each element has a share of
    1/n of the random values, up to 2^-53 at either end. *)
Theorem pick_follows_double_product b response (random : double) el :
  eligible b (artworks response) = Ok el -> el <> [] ->
  (0 <= random)%Q -> (random < 1)%Q ->
  let n := length el in
  (exists (i : nat) pick,
      random_index random n = Z.of_nat i /\ (i < n)%nat /\
      el !! i = Some pick /\
      select b response random = (let* v := inputs_of pick in Ok (Shown v)) /\
      (nullish pick = false ->
       exists v,
         select b response random = Ok (Shown v) /\
         Title v = js_or (prop pick "title") (VStr NA) /\
         artistOf pick = Ok (Artist v) /\
         safe (prop pick "culture") = Ok (Culture v) /\
         safe (prop pick "century") = Ok (Century v) /\
         Date v = js_or (prop pick "dated") (VStr NA) /\
         Medium v = js_or (prop pick "medium") (VStr NA) /\
         Image v = js_or (prop pick "primaryimageurl") (VStr EmptyString))) /\
  ((Z.of_nat n <= 2 ^ 32)%Z ->
   (Qfloor (random * inject_Z (Z.of_nat n)) <= random_index random n
    <= Qfloor (random * inject_Z (Z.of_nat n)) + 1)%Z /\
   (forall (j : nat) (q : double),
       (j < n)%nat -> (0 <= q)%Q -> (q < 1)%Q ->
       ((inject_Z (Z.of_nat j) / inject_Z (Z.of_nat n) <= q)%Q ->
        (q < inject_Z (Z.of_nat j + 1) / inject_Z (Z.of_nat n) - 2 ^ (-53))%Q ->
        random_index q n = Z.of_nat j) /\
       (random_index q n = Z.of_nat j ->
        (inject_Z (Z.of_nat j) / inject_Z (Z.of_nat n) - 2 ^ (-53) <= q)%Q /\
        (q < inject_Z (Z.of_nat j + 1) / inject_Z (Z.of_nat n))%Q))).
Proof.
  intros Hel Hne Hlo Hhi n.
  assert (Hn : (0 < n)%nat) by (subst n; destruct el; [congruence | simpl; lia]).
  split.
  - destruct (select_pick b response random el Hel Hne Hlo Hhi)
      as (i & pick & Hi & Hlt & Hpick & Hsel).
    exists i, pick. repeat split; try assumption.
    intros Hnull.
    assert (Hin : pick ∈ el) by (now apply list_elem_of_lookup_2 in Hpick).
    destruct (eligible_elem _ _ _ _ Hel Hin) as [Hkeep _].
    destruct (keep_inv _ _ _ Hkeep) as (a & cu & ce & Hkeys & _).
    pose proof (inputs_of_Ok pick a cu ce Hnull Hkeys) as Hv.
    eexists. split; [rewrite Hsel, Hv; reflexivity |].
    exact (inputs_of_fields pick _ Hv).
  - intros Hbig.
    assert (Hbig' : (Z.of_nat n <= 2 ^ 53)%Z).
    { eapply Z.le_trans; [exact Hbig |]. discriminate. }
    split.
    + apply random_index_near_floor;
        [exact Hlo | now apply double_below_one | exact Hn | exact Hbig'].
    + intros j q Hj Hqlo Hqhi.
      apply random_index_share;
        [exact Hqlo | now apply double_below_one | exact Hn | exact Hbig'].
Qed.

Lemma pick_follows_double_product_witness :
  exists (i : nat) pick,
    random_index third 3 = Z.of_nat i /\ (i < 3)%nat /\
    [vase; amphora; amphora] !! i = Some pick /\
    select initial_bans (response_of [vase; amphora; amphora]) third
    = (let* v := inputs_of pick in Ok (Shown v)) /\
    (nullish pick = false ->
     exists v,
       select initial_bans (response_of [vase; amphora; amphora]) third
       = Ok (Shown v) /\
       Title v = js_or (prop pick "title") (VStr NA) /\
       artistOf pick = Ok (Artist v) /\
       safe (prop pick "culture") = Ok (Culture v) /\
       safe (prop pick "century") = Ok (Century v) /\
       Date v = js_or (prop pick "dated") (VStr NA) /\
       Medium v = js_or (prop pick "medium") (VStr NA) /\
       Image v = js_or (prop pick "primaryimageurl") (VStr EmptyString)).
Proof.
  refine (proj1 (pick_follows_double_product initial_bans
                   (response_of [vase; amphora; amphora]) third
                   [vase; amphora; amphora] _ _ _ _)).
  - vm_compute. reflexivity.
  - discriminate.
  - unfold Qle. vm_compute. discriminate.
  - reflexivity.
Defined.

(** C3. The selector answers with the empty result exactly when the
    retained list is empty, and always does for an empty batch, whatever
    the bans; and for bans that hold the three sets, a batch of raw records
    and a random value in [0,1) it raises nothing else: it answers with the
    empty result or with a record. *)
Theorem empty_result_iff b response random :
  (select b response random = Ok EmptyResult <->
   eligible b (artworks response) = Ok []) /\
  (artworks response = VArr [] -> select b response random = Ok EmptyResult) /\
  (forall l,
      has_tracked b -> artworks response = VArr l ->
      Forall (fun r => raw_record r = true) l ->
      (0 <= random)%Q -> (random < 1)%Q ->
      select b response random = Ok EmptyResult \/
      exists v, select b response random = Ok (Shown v)).
Proof.
  split; [| split].
  - split.
    + intros Hsel. destruct (select_Ok_inv _ _ _ _ Hsel) as [el Hel].
      rewrite (select_unfold _ _ _ _ Hel) in Hsel. rewrite Hel.
      destruct el as [| x el]; [reflexivity |]. simpl in Hsel.
      destruct (inputs_of _); discriminate.
    + intros Hel. now rewrite (select_unfold _ _ _ _ Hel).
  - intros Harts. unfold select. now rewrite Harts.
  - intros l ([sA HA] & [sCu HCu] & [sCe HCe]) Harts Hraw Hlo Hhi.
    assert (Htotal : exists el, eligible b (artworks response) = Ok el).
    { rewrite Harts. simpl. apply filter_array_total.
      eapply Forall_impl; [exact Hraw |]. intros r Hr. simpl.
      apply raw_record_inv in Hr as (_ & a & cu & ce & Hkeys).
      now rewrite (keep_unbanned b r a cu ce sA sCu sCe Hkeys HA HCu HCe). }
    destruct Htotal as [el Hel].
    destruct el as [| x el'] eqn:Heq.
    { left. now rewrite (select_unfold _ _ _ _ Hel). }
    right. rewrite <- Heq in *.
    destruct (select_pick b response random el Hel ltac:(congruence) Hlo Hhi)
      as (i & pick & _ & _ & Hpick & Hsel).
    assert (Hin : pick ∈ el) by (now apply list_elem_of_lookup_2 in Hpick).
    destruct (eligible_elem _ _ _ _ Hel Hin) as (_ & l' & Hl' & Hinl).
    rewrite Harts in Hl'. injection Hl' as <-.
    rewrite Forall_forall in Hraw. specialize (Hraw pick Hinl).
    apply raw_record_inv in Hraw as (Hnull & a & cu & ce & Hkeys).
    rewrite Hsel, (inputs_of_Ok pick a cu ce Hnull Hkeys). simpl. eauto.
Qed.

Lemma empty_result_iff_witness :
  select (<["Culture" := {["Greek"]}]> initial_bans) (response_of [vase]) half
  = Ok EmptyResult \/
  exists v,
    select (<["Culture" := {["Greek"]}]> initial_bans) (response_of [vase]) half
    = Ok (Shown v).
Proof.
  refine (proj2 (proj2 (empty_result_iff (<["Culture" := {["Greek"]}]> initial_bans)
                          (response_of [vase]) half)) [vase] _ _ _ _ _).
  - split; [| split]; eexists; vm_compute; reflexivity.
  - reflexivity.
  - constructor; [reflexivity | constructor].
  - unfold Qle. simpl. lia.
  - reflexivity.
Defined.

(** C8. Clear Bans sets the bans to the three empty sets, whatever they
    were; a selection after it is the selection with the initial, empty
    bans, for every response and random value; and under the cleared bans
    the filter drops no record: the retained list is the whole batch. *)
Theorem clearBans_resets prev :
  clearBans prev !! "Artist" = Some ∅ /\
  clearBans prev !! "Culture" = Some ∅ /\
  clearBans prev !! "Century" = Some ∅ /\
  (forall k, set_at (clearBans prev) k = ∅) /\
  (forall response random,
      select (clearBans prev) response random
      = select initial_bans response random) /\
  (forall l el, eligible (clearBans prev) (VArr l) = Ok el -> el = l) /\
  (forall l, Forall (fun r => is_Ok (ban_keys r) = true) l ->
             eligible (clearBans prev) (VArr l) = Ok l).
Proof.
  do 3 (split; [reflexivity |]).
  split; [apply set_at_clearBans |].
  split; [reflexivity |]. split.
  - intros l el Hf. simpl in Hf.
    apply filter_array_keep_all in Hf; [exact Hf |].
    intros x kept. rewrite keep_clearBans.
    destruct (ban_keys x); simpl; [now intros [= <-] | discriminate].
  - intros l Hall. simpl. apply filter_array_all.
    eapply Forall_impl; [exact Hall |]. intros r Hr. simpl in Hr.
    rewrite keep_clearBans. now destruct (ban_keys r).
Qed.

Lemma clearBans_resets_witness :
  eligible (clearBans (<["Culture" := {["Greek"]}]> initial_bans))
    (VArr [vase; amphora])
  = Ok [vase; amphora].
Proof.
  refine (proj2 (proj2 (proj2 (proj2 (proj2 (proj2
            (clearBans_resets (<["Culture" := {["Greek"]}]> initial_bans)))))))
            [vase; amphora] _).
  repeat constructor.
Defined.

End SelectorTheorems.

(** ** Normalization of the displayed fields *)

Section Normalization.

Implicit Types (x pick : value) (s : string).

Lemma trimStart_white (l : list ascii) :
  forallb is_white_space l = true -> trimStart l = [].
Proof.
  induction l as [| a l IH]; simpl; [reflexivity |].
  destruct (is_white_space a); simpl; [exact IH | discriminate].
Qed.

Lemma trim_whitespace_only s : whitespace_only s = true -> trim s = EmptyString.
Proof.
  unfold whitespace_only, trim. intros Hws.
  now rewrite (trimStart_white _ Hws).
Qed.

Lemma safe_blank x : blank x = true -> safe x = Ok NA.
Proof.
  destruct x as [| | | | s | |]; try discriminate; try reflexivity.
  simpl. intros Hws. unfold safe. simpl.
  destruct (String.eqb s EmptyString); simpl; [reflexivity |].
  now rewrite (trim_whitespace_only s Hws).
Qed.

Lemma js_or_missing_or_empty x d : missing_or_empty x = true -> js_or x d = d.
Proof.
  destruct x as [| | | | s | |]; try discriminate; try reflexivity.
  simpl. unfold js_or. simpl. now intros ->.
Qed.

(** C4, counterexample. A record whose title, date and image URL consist
    of white space only is displayed with them as they are, not with N/A
    and the empty string. *)
Lemma whitespace_title_counterexample :
  let pick := VObj [ ("title", VStr "  "); ("dated", VStr " ");
                     ("primaryimageurl", VStr " ") ] in
  raw_record pick = true /\
  blank (prop pick "title") = true /\
  blank (prop pick "dated") = true /\
  blank (prop pick "primaryimageurl") = true /\
  exists v,
    inputs_of pick = Ok v /\
    Title v = VStr "  " /\ Title v <> VStr NA /\
    Date v = VStr " " /\ Date v <> VStr NA /\
    Image v = VStr " " /\ Image v <> VStr EmptyString.
Proof.
  do 4 (split; [reflexivity |]).
  eexists. split; [reflexivity |]. simpl.
  repeat split; discriminate.
Qed.

(** C4, amended. For every raw record the displayed record exists, and: a
    missing, empty or whitespace-only artist, culture or century becomes
    N/A; a missing or empty title, date or medium becomes N/A; a missing
    or empty image URL becomes the empty string. *)
Theorem blank_fields_normalized pick :
  raw_record pick = true ->
  exists v,
    inputs_of pick = Ok v /\
    (blank (first_person_name pick) = true -> Artist v = NA) /\
    (blank (prop pick "culture") = true -> Culture v = NA) /\
    (blank (prop pick "century") = true -> Century v = NA) /\
    (missing_or_empty (prop pick "title") = true -> Title v = VStr NA) /\
    (missing_or_empty (prop pick "dated") = true -> Date v = VStr NA) /\
    (missing_or_empty (prop pick "medium") = true -> Medium v = VStr NA) /\
    (missing_or_empty (prop pick "primaryimageurl") = true ->
     Image v = VStr EmptyString).
Proof.
  intros Hraw. apply raw_record_inv in Hraw as (Hnull & a & cu & ce & Hkeys).
  eexists. split; [exact (inputs_of_Ok pick a cu ce Hnull Hkeys) |].
  unfold ban_keys, artistOf, opt_prop in Hkeys. rewrite Hnull in Hkeys.
  simpl.
  repeat split.
  - intros Hb. rewrite (safe_blank _ Hb) in Hkeys. simpl in Hkeys.
    destruct (safe (prop pick "culture")); simpl in Hkeys; [| discriminate].
    destruct (safe (prop pick "century")); simpl in Hkeys; [| discriminate].
    congruence.
  - intros Hb. rewrite (safe_blank _ Hb) in Hkeys.
    destruct (safe (first_person_name pick)); simpl in Hkeys; [| discriminate].
    destruct (safe (prop pick "century")); simpl in Hkeys; [| discriminate].
    congruence.
  - intros Hb. rewrite (safe_blank _ Hb) in Hkeys.
    destruct (safe (first_person_name pick)); simpl in Hkeys; [| discriminate].
    destruct (safe (prop pick "culture")); simpl in Hkeys; [| discriminate].
    simpl in Hkeys. congruence.
  - apply js_or_missing_or_empty.
  - apply js_or_missing_or_empty.
  - apply js_or_missing_or_empty.
  - apply js_or_missing_or_empty.
Qed.

Lemma blank_fields_normalized_witness :
  exists v,
    inputs_of amphora = Ok v /\
    (blank (first_person_name amphora) = true -> Artist v = NA) /\
    (blank (prop amphora "culture") = true -> Culture v = NA) /\
    (blank (prop amphora "century") = true -> Century v = NA) /\
    (missing_or_empty (prop amphora "title") = true -> Title v = VStr NA) /\
    (missing_or_empty (prop amphora "dated") = true -> Date v = VStr NA) /\
    (missing_or_empty (prop amphora "medium") = true -> Medium v = VStr NA) /\
    (missing_or_empty (prop amphora "primaryimageurl") = true ->
     Image v = VStr EmptyString).
Proof. apply (blank_fields_normalized amphora). reflexivity. Defined.

End Normalization.

(** ** The discover cycle and the displayed record *)

Section Cycle.

Implicit Types (st : app_state) (response : value) (http : result value).

Lemma fetchArtwork_no_key apiKey http random st :
  key_present apiKey = false ->
  fetchArtwork apiKey http random st = (Some alert_message, st).
Proof. unfold fetchArtwork. now intros ->. Qed.

Lemma fetchArtwork_rejected apiKey e random st :
  key_present apiKey = true ->
  fetchArtwork apiKey (Throw e) random st
  = (None, {| inputs := inputs st; bans := bans st; loading := false;
              error := fetch_message |}).
Proof. unfold fetchArtwork. now intros ->. Qed.

Lemma fetchArtwork_response apiKey response random st :
  key_present apiKey = true ->
  fetchArtwork apiKey (Ok response) random st
  = (None,
     match select (bans st) response random with
     | Ok (Shown v) =>
         {| inputs := v; bans := bans st; loading := false;
            error := EmptyString |}
     | Ok EmptyResult =>
         {| inputs := inputs st; bans := bans st; loading := false;
            error := empty_message |}
     | Throw _ =>
         {| inputs := inputs st; bans := bans st; loading := false;
            error := fetch_message |}
     end).
Proof. unfold fetchArtwork. now intros ->. Qed.

(** C6. After a discover cycle in which the request is rejected, or the
    retained list is empty, or anything in the selection throws, or the
    API key is missing, the displayed record is the one from before the
    cycle; the displayed record differs only after a cycle in which the
    response arrived and the selector returned a record, and then it is
    that record. The bans are never changed by the cycle. *)
Theorem failed_cycle_keeps_view apiKey http random st :
  let st' := snd (fetchArtwork apiKey http random st) in
  (forall e, http = Throw e -> inputs st' = inputs st) /\
  (forall response,
      http = Ok response ->
      select (bans st) response random = Ok EmptyResult ->
      inputs st' = inputs st) /\
  (forall response e,
      http = Ok response ->
      select (bans st) response random = Throw e ->
      inputs st' = inputs st) /\
  (key_present apiKey = false -> st' = st) /\
  (forall response v,
      key_present apiKey = true -> http = Ok response ->
      select (bans st) response random = Ok (Shown v) ->
      inputs st' = v) /\
  (inputs st' <> inputs st ->
   exists response v,
     key_present apiKey = true /\ http = Ok response /\
     select (bans st) response random = Ok (Shown v) /\ inputs st' = v) /\
  bans st' = bans st.
Proof.
  intros st'. subst st'.
  destruct (key_present apiKey) eqn:Hkey.
  2: { rewrite (fetchArtwork_no_key _ _ _ _ Hkey). simpl.
       repeat match goal with |- _ /\ _ => split end;
         intros; try reflexivity; congruence. }
  destruct http as [response | e].
  2: { rewrite (fetchArtwork_rejected _ _ _ _ Hkey). simpl.
       repeat match goal with |- _ /\ _ => split end;
         intros; try reflexivity; congruence. }
  rewrite (fetchArtwork_response _ _ _ _ Hkey). simpl.
  destruct (select (bans st) response random) as [[v |] | e] eqn:Hsel; simpl;
    repeat match goal with |- _ /\ _ => split end;
    intros; try reflexivity; try congruence.
  exists response, v. repeat split. exact Hsel.
Qed.

Lemma failed_cycle_keeps_view_witness :
  let st := {| inputs := initial_inputs;
               bans := <["Culture" := {["Greek"]}]> initial_bans;
               loading := false; error := EmptyString |} in
  inputs (snd (fetchArtwork (Some "key") (Ok (response_of [vase])) half st))
  = inputs st.
Proof.
  intros st.
  refine (proj1 (proj2 (failed_cycle_keeps_view (Some "key")
                          (Ok (response_of [vase])) half st))
            (response_of [vase]) _ _).
  - reflexivity.
  - vm_compute. reflexivity.
Defined.

(** C10. With an API key, when the response arrives and its records field
    is missing or null, the cycle ends with the message of the empty
    result, which is not the message of a failed fetch, and with the
    displayed record and the bans unchanged. *)
Theorem missing_records_is_empty_result key response random st :
  key <> EmptyString ->
  nullish (opt_prop (opt_prop response "data") "records") = true ->
  fetchArtwork (Some key) (Ok response) random st
  = (None, {| inputs := inputs st; bans := bans st; loading := false;
              error := empty_message |}) /\
  empty_message <> fetch_message.
Proof.
  intros Hkey Hrec. split; [| discriminate].
  rewrite fetchArtwork_response.
  - unfold select, artworks, js_or.
    destruct (opt_prop (opt_prop response "data") "records");
      try discriminate; reflexivity.
  - unfold key_present. simpl. apply String.eqb_neq in Hkey. now rewrite Hkey.
Qed.

Lemma missing_records_is_empty_result_witness :
  fetchArtwork (Some "key") (Ok (VObj [("data", VObj [("records", VNull)])]))
    half initial_state
  = (None, {| inputs := inputs initial_state; bans := bans initial_state;
              loading := false; error := empty_message |}) /\
  empty_message <> fetch_message.
Proof.
  apply (missing_records_is_empty_result "key"
           (VObj [("data", VObj [("records", VNull)])]) half initial_state).
  - discriminate.
  - reflexivity.
Defined.

End Cycle.

(** * Further properties *)

(** ** White space and [safe] *)

Section Trim.

Implicit Types (l m w : list ascii) (s p q : string).

Local Open Scope list_scope.

Lemma trimStart_head_kept l : head_kept (trimStart l).
Proof.
  induction l as [| a l IH]; simpl; [exact I |].
  destruct (is_white_space a) eqn:Ha; [exact IH | exact Ha].
Qed.

Lemma trimStart_fixed l : head_kept l -> trimStart l = l.
Proof. destruct l as [| a l]; simpl; [reflexivity | now intros ->]. Qed.

Lemma trimStart_white_app w l :
  forallb is_white_space w = true -> trimStart (w ++ l) = trimStart l.
Proof.
  induction w as [| a w IH]; simpl; [reflexivity |].
  destruct (is_white_space a); simpl; [exact IH | discriminate].
Qed.

Lemma trimStart_app_white l w :
  forallb is_white_space w = true ->
  trimStart (l ++ w) = if forallb is_white_space l then [] else trimStart l ++ w.
Proof.
  intros Hw. induction l as [| a l IH]; simpl.
  - now apply trimStart_white.
  - destruct (is_white_space a); simpl; [exact IH | reflexivity].
Qed.

Lemma forallb_white_rev w :
  forallb is_white_space (rev w) = forallb is_white_space w.
Proof.
  induction w as [| a w IH]; simpl; [reflexivity |].
  rewrite forallb_app, IH. simpl. rewrite andb_true_r. apply andb_comm.
Qed.

Lemma trimEnd_app_white l w :
  forallb is_white_space w = true -> trimEnd (l ++ w) = trimEnd l.
Proof.
  intros Hw. unfold trimEnd. rewrite rev_app_distr.
  rewrite trimStart_white_app; [reflexivity |]. now rewrite forallb_white_rev.
Qed.

(** Trimming the end removes a run of white space and nothing else. *)
Lemma trimEnd_split l :
  exists w, l = trimEnd l ++ w /\ forallb is_white_space w = true.
Proof.
  unfold trimEnd. remember (rev l) as m eqn:Hm.
  assert (Hl : l = rev m) by (now rewrite Hm, rev_involutive). clear Hm. subst l.
  induction m as [| a m (w & Hw & Hall)]; simpl.
  - now exists [].
  - destruct (is_white_space a) eqn:Ha.
    + exists (w ++ [a]). split.
      * rewrite Hw at 1. now rewrite <- app_assoc.
      * rewrite forallb_app, Hall. simpl. now rewrite Ha.
    + exists []. split; [now rewrite app_nil_r |]. reflexivity.
Qed.

Lemma trimEnd_idempotent l : trimEnd (trimEnd l) = trimEnd l.
Proof.
  unfold trimEnd. rewrite rev_involutive.
  now rewrite (trimStart_fixed _ (trimStart_head_kept _)).
Qed.

Lemma trimEnd_head_kept l : head_kept l -> head_kept (trimEnd l).
Proof.
  intros Hl. destruct (trimEnd_split l) as (w & Hw & _).
  destruct (trimEnd l) as [| a n]; [exact I |].
  rewrite Hw in Hl. exact Hl.
Qed.

Lemma trim_list_idempotent l : trim_list (trim_list l) = trim_list l.
Proof.
  unfold trim_list.
  rewrite (trimStart_fixed (trimEnd (trimStart l))).
  - apply trimEnd_idempotent.
  - apply trimEnd_head_kept, trimStart_head_kept.
Qed.

Lemma trim_list_padded w1 l w2 :
  forallb is_white_space w1 = true -> forallb is_white_space w2 = true ->
  trim_list (w1 ++ l ++ w2) = trim_list l.
Proof.
  intros H1 H2. unfold trim_list.
  rewrite (trimStart_white_app _ _ H1), (trimStart_app_white _ _ H2).
  destruct (forallb is_white_space l) eqn:Hl.
  - now rewrite (trimStart_white _ Hl).
  - now apply trimEnd_app_white.
Qed.

Lemma list_ascii_of_string_app s q :
  list_ascii_of_string (s ++ q)%string
  = list_ascii_of_string s ++ list_ascii_of_string q.
Proof. induction s as [| a s IH]; simpl; [reflexivity | now rewrite IH]. Qed.

Lemma trim_idempotent s : trim (trim s) = trim s.
Proof.
  unfold trim. rewrite list_ascii_of_string_of_list_ascii.
  f_equal. apply (trim_list_idempotent (list_ascii_of_string s)).
Qed.

Lemma trim_padded p s q :
  whitespace_only p = true -> whitespace_only q = true ->
  trim (p ++ s ++ q)%string = trim s.
Proof.
  unfold whitespace_only, trim. intros Hp Hq.
  rewrite !list_ascii_of_string_app.
  f_equal. apply (trim_list_padded _ (list_ascii_of_string s) _ Hp Hq).
Qed.

Lemma safe_string s :
  safe (VStr s)
  = Ok (if String.eqb (trim s) EmptyString then NA else trim s).
Proof.
  unfold safe. simpl. destruct (String.eqb_spec s EmptyString) as [-> | _]; simpl.
  - reflexivity.
  - now destruct (String.eqb (trim s) EmptyString).
Qed.

Lemma safe_inv (x : value) s :
  safe x = Ok s ->
  s = NA \/ exists str, ToString x = Ok str /\ s = trim str /\ s <> EmptyString.
Proof.
  unfold safe. destruct (truthy x); [| intros [= <-]; now left].
  destruct (ToString x) as [str |]; simpl; [| discriminate].
  destruct (String.eqb_spec (trim str) EmptyString) as [He | Hne].
  - intros [= <-]. now left.
  - intros [= <-]. right. now exists str.
Qed.

End Trim.

Section SafeTheorems.

Implicit Types (x : value) (s p q : string).

(** X1. Whatever value [safe] is given, the string it returns is not empty
    and has no white space at either end. *)
Theorem safe_result_trimmed x s :
  safe x = Ok s -> s <> EmptyString /\ trim s = s.
Proof.
  intros Hs. apply safe_inv in Hs as [-> | (str & _ & -> & Hne)].
  - split; [discriminate | reflexivity].
  - split; [exact Hne | apply trim_idempotent].
Qed.

Lemma safe_result_trimmed_witness :
  " Exekias " <> EmptyString /\
  "Exekias" <> EmptyString /\ trim "Exekias" = "Exekias".
Proof.
  split; [discriminate |].
  apply (safe_result_trimmed (VStr " Exekias ") "Exekias"). reflexivity.
Defined.

(** X2. [safe] returns a string exactly as it is if and only if the string
    is not empty and has no white space at either end. *)
Theorem safe_verbatim_iff s :
  safe (VStr s) = Ok s <-> s <> EmptyString /\ trim s = s.
Proof.
  rewrite safe_string. split.
  - destruct (String.eqb_spec (trim s) EmptyString) as [He | Hne].
    + intros [= <-]. discriminate He.
    + intros [= Heq]. split; [congruence | exact Heq].
  - intros [Hne Heq]. rewrite Heq.
    apply String.eqb_neq in Hne. now rewrite Hne.
Qed.

Lemma safe_verbatim_iff_witness : safe (VStr "5th century B.C.") = Ok "5th century B.C.".
Proof.
  apply (proj2 (safe_verbatim_iff "5th century B.C.")).
  split; [discriminate | reflexivity].
Defined.

(** X3. White space around a string does not change what [safe] returns
    for it: padded and unpadded spellings of a field give the same string. *)
Theorem safe_ignores_padding p s q :
  whitespace_only p = true -> whitespace_only q = true ->
  safe (VStr (p ++ s ++ q)) = safe (VStr s).
Proof.
  intros Hp Hq. now rewrite !safe_string, (trim_padded p s q Hp Hq).
Qed.

Lemma safe_ignores_padding_witness :
  safe (VStr ("  " ++ "Greek" ++ " ")) = safe (VStr "Greek").
Proof. apply (safe_ignores_padding "  " "Greek" " "); reflexivity. Defined.

End SafeTheorems.

Section FilterTheorems.

Implicit Types (b : bans_t) (r pick response : value) (l el : list value).

Lemma keep_Ok_unbanned b r kept a cu ce :
  keep b r = Ok kept -> ban_keys r = Ok (a, cu, ce) ->
  a ∉ set_at b "Artist" -> cu ∉ set_at b "Culture" ->
  ce ∉ set_at b "Century" -> kept = true.
Proof.
  unfold keep, ban_keys, has, set_at.
  destruct (artistOf r) as [a' |]; simpl; [| discriminate].
  destruct (safe (opt_prop r "culture")) as [cu' |]; simpl; [| discriminate].
  destruct (safe (opt_prop r "century")) as [ce' |]; simpl; [| discriminate].
  intros Hkeep [= -> -> ->].
  destruct (b !! "Artist") as [sA |]; simpl in *; [| discriminate].
  intros Ha. rewrite (bool_decide_eq_false_2 _ Ha) in Hkeep.
  destruct (b !! "Culture") as [sCu |]; simpl in *; [| discriminate].
  intros Hcu. rewrite (bool_decide_eq_false_2 _ Hcu) in Hkeep.
  destruct (b !! "Century") as [sCe |]; simpl in *; [| discriminate].
  intros Hce. rewrite (bool_decide_eq_false_2 _ Hce) in Hkeep.
  congruence.
Qed.

Lemma keep_true_unbanned b r :
  keep b r = Ok true ->
  exists a cu ce, ban_keys r = Ok (a, cu, ce) /\
    (a ∉ set_at b "Artist") /\ (cu ∉ set_at b "Culture") /\
    (ce ∉ set_at b "Century").
Proof.
  intros Hkeep. destruct (keep_inv _ _ _ Hkeep) as (a & cu & ce & Hkeys & Hsets).
  destruct (Hsets eq_refl) as (sA & sCu & sCe & HA & HCu & HCe & Ha & Hcu & Hce).
  exists a, cu, ce. unfold set_at. rewrite HA, HCu, HCe. simpl. tauto.
Qed.

Lemma filter_array_sublist (f : value -> result bool) l el :
  filter_array f l = Ok el -> sublist el l.
Proof.
  revert el. induction l as [| y l IH]; simpl; intros el.
  - intros [= <-]. constructor.
  - destruct (f y) as [kept |]; simpl; [| discriminate].
    destruct (filter_array f l) as [tail |]; simpl; [| discriminate].
    intros [= <-]. destruct kept.
    + apply sublist_skip. now apply IH.
    + apply sublist_cons. now apply IH.
Qed.

Lemma filter_array_Ok_elem (f : value -> result bool) l el x :
  filter_array f l = Ok el -> x ∈ l -> exists kept, f x = Ok kept.
Proof.
  revert el. induction l as [| y l IH]; simpl; intros el Hf Hx.
  - now apply not_elem_of_nil in Hx.
  - destruct (f y) as [kept |] eqn:Hy; simpl in Hf; [| discriminate].
    destruct (filter_array f l) as [tail |]; simpl in Hf; [| discriminate].
    apply elem_of_cons in Hx as [-> | Hx]; [eauto |]. now apply (IH tail).
Qed.

Lemma filter_array_complete (f : value -> result bool) l el x :
  filter_array f l = Ok el -> x ∈ l -> f x = Ok true -> x ∈ el.
Proof.
  revert el. induction l as [| y l IH]; simpl; intros el Hf Hx Hfx.
  - now apply not_elem_of_nil in Hx.
  - destruct (f y) as [kept |] eqn:Hy; simpl in Hf; [| discriminate].
    destruct (filter_array f l) as [tail |]; simpl in Hf; [| discriminate].
    injection Hf as <-.
    apply elem_of_cons in Hx as [-> | Hx].
    + rewrite Hfx in Hy. injection Hy as <-. apply list_elem_of_here.
    + specialize (IH tail eq_refl Hx Hfx).
      destruct kept; [now apply list_elem_of_further | exact IH].
Qed.

Lemma filter_array_antitone (f g : value -> result bool) l el el' :
  (forall x kept, x ∈ l -> g x = Ok true -> f x = Ok kept -> kept = true) ->
  filter_array f l = Ok el -> filter_array g l = Ok el' -> sublist el' el.
Proof.
  revert el el'. induction l as [| y l IH]; simpl; intros el el' Himp Hf Hg.
  - injection Hf as <-. injection Hg as <-. constructor.
  - destruct (f y) as [kf |] eqn:Hfy; simpl in Hf; [| discriminate].
    destruct (g y) as [kg |] eqn:Hgy; simpl in Hg; [| discriminate].
    destruct (filter_array f l) as [tf |]; simpl in Hf; [| discriminate].
    destruct (filter_array g l) as [tg |]; simpl in Hg; [| discriminate].
    injection Hf as <-. injection Hg as <-.
    assert (Hrec : sublist tg tf).
    { apply IH; [| reflexivity | reflexivity].
      intros x kept Hx. apply Himp. now apply list_elem_of_further. }
    destruct kg.
    + rewrite (Himp y kf (list_elem_of_here _ _) Hgy Hfy).
      now apply sublist_skip.
    + destruct kf; [now apply sublist_cons | exact Hrec].
Qed.

Lemma filter_array_ext (f g : value -> result bool) l :
  (forall x, f x = g x) -> filter_array f l = filter_array g l.
Proof.
  intros Hfg. induction l as [| y l IH]; simpl; [reflexivity |].
  now rewrite Hfg, IH.
Qed.

(** X4. The retained list is a sublist of the batch, in the order of the
    batch, and it holds every record of the batch of which neither the
    artist, nor the culture, nor the century is banned. *)
Theorem eligible_exact b l el :
  eligible b (VArr l) = Ok el ->
  sublist el l /\
  (forall r a cu ce,
      r ∈ l -> ban_keys r = Ok (a, cu, ce) ->
      a ∉ set_at b "Artist" -> cu ∉ set_at b "Culture" ->
      ce ∉ set_at b "Century" -> r ∈ el).
Proof.
  simpl. intros Hf. split; [now apply filter_array_sublist in Hf |].
  intros r a cu ce Hr Hkeys Ha Hcu Hce.
  destruct (filter_array_Ok_elem _ _ _ _ Hf Hr) as [kept Hkeep].
  rewrite (keep_Ok_unbanned _ _ _ _ _ _ Hkeep Hkeys Ha Hcu Hce) in Hkeep.
  now apply (filter_array_complete _ _ _ _ Hf Hr).
Qed.

Lemma eligible_exact_witness :
  let b : bans_t := <["Culture" := {["Roman"]}]> initial_bans in
  sublist [vase] [vase; amphora] /\
  (forall r a cu ce,
      r ∈ [vase; amphora] -> ban_keys r = Ok (a, cu, ce) ->
      a ∉ set_at b "Artist" -> cu ∉ set_at b "Culture" ->
      ce ∉ set_at b "Century" -> r ∈ [vase]).
Proof.
  intros b. apply (eligible_exact b [vase; amphora] [vase]).
  vm_compute. reflexivity.
Defined.

(** X5. Larger ban sets retain less: when each of the three sets of b is
    included in the one of b', the list retained under b' is a sublist of
    the list retained under b. *)
Theorem eligible_antitone b b' l el el' :
  (forall k, tracked k -> set_at b k ⊆ set_at b' k) ->
  eligible b (VArr l) = Ok el -> eligible b' (VArr l) = Ok el' ->
  sublist el' el.
Proof.
  simpl. intros Hsub Hf Hg.
  apply (filter_array_antitone (keep b) (keep b') l el el'); [| exact Hf | exact Hg].
  intros x kept _ Hk' Hk.
  destruct (keep_true_unbanned _ _ Hk') as (a & cu & ce & Hkeys & Ha & Hcu & Hce).
  apply (keep_Ok_unbanned _ _ _ _ _ _ Hk Hkeys).
  - intros Hin. apply Ha. apply (Hsub "Artist"); [now left | exact Hin].
  - intros Hin. apply Hcu. apply (Hsub "Culture"); [right; now left | exact Hin].
  - intros Hin. apply Hce. apply (Hsub "Century"); [right; now right | exact Hin].
Qed.

End FilterTheorems.

Section MoreFilterTheorems.

Implicit Types (b : bans_t) (r pick response : value) (l el : list value).

Lemma eligible_antitone_witness :
  sublist [vase] [vase; amphora].
Proof.
  apply (eligible_antitone initial_bans (<["Culture" := {["Roman"]}]> initial_bans)
           [vase; amphora] [vase; amphora] [vase]).
  - intros k [-> | [-> | ->]] x Hx; exfalso; revert Hx; apply not_elem_of_empty.
  - vm_compute. reflexivity.
  - vm_compute. reflexivity.
Defined.

Lemma keep_agree b b' r :
  (forall k, tracked k -> b !! k = b' !! k) -> keep b r = keep b' r.
Proof.
  intros Hag. unfold keep, has.
  rewrite (Hag "Artist"), (Hag "Culture"), (Hag "Century");
    [reflexivity | right; now right | right; now left | now left].
Qed.

(** X6. In every state of the bans reachable from the initial one, a
    record whose artist, culture and century are all unknown passes the
    filter; so a batch that holds such a record never gives the empty
    result. *)
Theorem unknown_record_always_retained b r l el :
  reachable b -> ban_keys r = Ok (NA, NA, NA) ->
  eligible b (VArr l) = Ok el -> r ∈ l ->
  keep b r = Ok true /\ r ∈ el /\
  (forall response random,
      artworks response = VArr l ->
      select b response random <> Ok EmptyResult).
Proof.
  intros Hreach Hkeys Hel Hr.
  destruct (reachable_invariant b Hreach) as [Hfree _].
  assert (Hkeep : keep b r = Ok true).
  { simpl in Hel. destruct (filter_array_Ok_elem _ _ _ _ Hel Hr) as [kept Hk].
    now rewrite (keep_Ok_unbanned _ _ _ _ _ _ Hk Hkeys
                   (Hfree "Artist") (Hfree "Culture") (Hfree "Century")) in Hk. }
  assert (Hin : r ∈ el).
  { simpl in Hel. now apply (filter_array_complete _ _ _ _ Hel Hr). }
  repeat split; [exact Hkeep | exact Hin |].
  intros response random Harts Hsel.
  rewrite <- Harts in Hel. rewrite (select_unfold _ _ _ _ Hel) in Hsel.
  destruct el as [| x el']; [now apply not_elem_of_nil in Hin |].
  simpl in Hsel. destruct (inputs_of _); discriminate.
Qed.

Lemma unknown_record_always_retained_witness :
  let b : bans_t := <["Culture" := {["Greek"]}]> initial_bans in
  keep b VNull = Ok true /\ VNull ∈ [VNull] /\
  (forall response random,
      artworks response = VArr [vase; VNull] ->
      select b response random <> Ok EmptyResult).
Proof.
  intros b.
  apply (unknown_record_always_retained b VNull [vase; VNull] [VNull]).
  - apply (reach_step (AddBan "Culture" "Greek") initial_bans b).
    + apply reach_initial.
    + vm_compute. reflexivity.
  - reflexivity.
  - vm_compute. reflexivity.
  - apply list_elem_of_further, list_elem_of_here.
Defined.

(** X7. The selection reads the entries Artist, Culture and Century of the
    bans and nothing else: two states of the bans that agree on these three
    names give the same selection for every response and random value. *)
Theorem select_reads_tracked_only b b' response random :
  (forall k, tracked k -> b !! k = b' !! k) ->
  select b response random = select b' response random.
Proof.
  intros Hag. unfold select.
  assert (Hel : eligible b (artworks response) = eligible b' (artworks response)).
  { unfold eligible. destruct (artworks response); try reflexivity.
    apply filter_array_ext. intros x. now apply keep_agree. }
  now rewrite Hel.
Qed.

Lemma select_reads_tracked_only_witness :
  select (<["Title" := {["Vase"]}]> initial_bans) (response_of [vase]) half
  = select initial_bans (response_of [vase]) half.
Proof.
  apply (select_reads_tracked_only (<["Title" := {["Vase"]}]> initial_bans)
           initial_bans (response_of [vase]) half).
  intros k [-> | [-> | ->]]; reflexivity.
Defined.

(** X8. A displayed record always comes from the batch: when the selector
    returns a record, the records field of the response is an array, and
    the record is the displayed form of one of its elements, which is
    neither null nor undefined and which the filter keeps. *)
Theorem shown_record_from_batch b response random v :
  select b response random = Ok (Shown v) ->
  exists l pick,
    opt_prop (opt_prop response "data") "records" = VArr l /\
    pick ∈ l /\ nullish pick = false /\ keep b pick = Ok true /\
    inputs_of pick = Ok v.
Proof.
  intros Hsel.
  destruct (select_Shown_inv _ _ _ _ Hsel) as (el & pick & Hel & Hin & _ & Hv).
  destruct (eligible_elem _ _ _ _ Hel Hin) as (Hkeep & l & Harts & Hinl).
  exists l, pick. repeat split; try assumption.
  - unfold artworks, js_or in Harts.
    destruct (truthy (opt_prop (opt_prop response "data") "records")) eqn:Ht;
      [exact Harts |].
    injection Harts as <-. now apply not_elem_of_nil in Hinl.
  - now apply inputs_of_inv in Hv as [Hn _].
Qed.

Lemma shown_record_from_batch_witness :
  exists l pick,
    opt_prop (opt_prop (response_of [vase; amphora]) "data") "records" = VArr l /\
    pick ∈ l /\ nullish pick = false /\ keep initial_bans pick = Ok true /\
    inputs_of pick
    = Ok {| Title := VStr "Amphora"; Artist := "Exekias";
            Culture := "Roman"; Century := "N/A";
            Date := VStr "540 BC"; Medium := VStr "N/A";
            Image := VStr EmptyString |}.
Proof.
  apply (shown_record_from_batch initial_bans (response_of [vase; amphora]) half).
  vm_compute. reflexivity.
Defined.

(** X9. When exactly one record is retained, it is the one displayed for
    every random value in [0,1); and with the random value 0 the first
    retained record is displayed, however many there are. *)
Theorem edge_draws b response (random : double) el :
  eligible b (artworks response) = Ok el ->
  (forall x, el = [x] -> (0 <= random)%Q -> (random < 1)%Q ->
     select b response random = (let* v := inputs_of x in Ok (Shown v))) /\
  (forall x rest, el = x :: rest ->
     select b response zero = (let* v := inputs_of x in Ok (Shown v))).
Proof.
  intros Hel. split.
  - intros x -> Hlo Hhi. rewrite (select_unfold _ _ _ _ Hel). simpl.
    destruct (random_index_range random 1 Hlo Hhi ltac:(lia)) as [H0 H1].
    replace (random_index random 1) with 0%Z by lia. reflexivity.
  - intros x rest ->. rewrite (select_unfold _ _ _ _ Hel). simpl.
    unfold random_index. rewrite double_round_zero; [reflexivity |].
    unfold Qeq. simpl. reflexivity.
Qed.

Lemma edge_draws_witness :
  select (<["Culture" := {["Roman"]}]> initial_bans)
    (response_of [vase; amphora]) seven_eighths
  = (let* v := inputs_of vase in Ok (Shown v)).
Proof.
  refine (proj1 (edge_draws (<["Culture" := {["Roman"]}]> initial_bans)
                   (response_of [vase; amphora]) seven_eighths [vase] _) vase _ _ _).
  - vm_compute. reflexivity.
  - reflexivity.
  - unfold Qle. simpl. lia.
  - reflexivity.
Defined.

End MoreFilterTheorems.

Section RecordsField.

Implicit Types (st : app_state) (response : value).

(** X10. With an API key and a response whose records field is not an
    array: a falsy field (missing, null, false, 0 or the empty string)
    ends the cycle with the message of the empty result, and any other
    value (a string, a number, an object) with the message of a failed
    fetch; the displayed record is unchanged in both cases. *)
Theorem records_not_an_array apiKey response random st :
  key_present apiKey = true ->
  (forall l, opt_prop (opt_prop response "data") "records" <> VArr l) ->
  let records := opt_prop (opt_prop response "data") "records" in
  let st' := snd (fetchArtwork apiKey (Ok response) random st) in
  inputs st' = inputs st /\
  error st' = (if truthy records then fetch_message else empty_message).
Proof.
  intros Hkey Hnot records st'. subst st'.
  rewrite (fetchArtwork_response _ _ _ _ Hkey). simpl.
  unfold select, artworks, js_or. fold records.
  specialize (Hnot) as Hnot'. fold records in Hnot'.
  destruct records as [| | [|] | n | s | l | props]; simpl;
    try (split; reflexivity).
  - destruct (n =? 0)%Z; simpl; split; reflexivity.
  - destruct (String.eqb s EmptyString); simpl; split; reflexivity.
  - now destruct (Hnot' l).
Qed.

Lemma records_not_an_array_witness :
  let response := VObj [("data", VObj [("records", VStr "rate limited")])] in
  let st' := snd (fetchArtwork (Some "key") (Ok response) half initial_state) in
  inputs st' = inputs initial_state /\ error st' = fetch_message.
Proof.
  intros response.
  apply (records_not_an_array (Some "key") response half initial_state).
  - reflexivity.
  - discriminate.
Defined.

End RecordsField.

Section BanAlgebra.

Implicit Types (attr value k : string) (prev next b : bans_t).

Lemma new_Set_of_present b attr (s : gset string) :
  b !! attr = Some s -> new_Set_of b attr = Ok s.
Proof. unfold new_Set_of. now intros ->. Qed.

Lemma new_Set_of_insert_ne b attr k (s : gset string) :
  attr <> k -> new_Set_of (<[k := s]> b) attr = new_Set_of b attr.
Proof.
  intros Hne. unfold new_Set_of. now rewrite lookup_insert_ne by congruence.
Qed.

Lemma difference_absent (t : gset string) value :
  value ∉ t -> t ∖ {[value]} = t.
Proof.
  intros Hv. apply set_eq. intros x. split.
  - now intros [Hx _]%elem_of_difference.
  - intros Hx. apply elem_of_difference. split; [exact Hx |].
    intros ->%elem_of_singleton. contradiction.
Qed.

Lemma difference_twice (t : gset string) value :
  t ∖ {[value]} ∖ {[value]} = t ∖ {[value]}.
Proof.
  apply set_eq. intros x. split.
  - now intros [Hx _]%elem_of_difference.
  - intros Hx. apply elem_of_difference. split; [exact Hx |].
    now apply elem_of_difference in Hx as [_ Hx].
Qed.

Lemma union_present (t : gset string) value :
  value ∈ t -> t ∪ {[value]} = t.
Proof.
  intros Hv. apply set_eq. intros x. split.
  - intros [Hx | ->%elem_of_singleton]%elem_of_union; assumption.
  - intros Hx. apply elem_of_union. now left.
Qed.

Lemma union_difference_absent (t : gset string) value :
  value ∉ t -> (t ∪ {[value]}) ∖ {[value]} = t.
Proof.
  intros Hv. apply set_eq. intros x. split.
  - intros [[Hx | Hx]%elem_of_union Hn]%elem_of_difference;
      [exact Hx | contradiction].
  - intros Hx. apply elem_of_difference. split; [apply elem_of_union; now left |].
    intros ->%elem_of_singleton. contradiction.
Qed.

Lemma addBan_cases attr value prev :
  addBan attr value prev
  = if String.eqb value EmptyString || String.eqb value NA then Ok prev
    else let* s := new_Set_of prev attr in Ok (<[attr := s ∪ {[value]}]> prev).
Proof. reflexivity. Qed.

(** X11. Removing a value that is not in the set of its attribute returns
    the bans unchanged, and removing the same value a second time changes
    nothing more. *)
Theorem removeBan_absent_and_repeated attr value b :
  (forall s, b !! attr = Some s -> value ∉ s -> removeBan attr value b = Ok b) /\
  (forall next, removeBan attr value b = Ok next ->
                removeBan attr value next = Ok next).
Proof.
  split.
  - intros s Hs Hv. unfold removeBan. rewrite (new_Set_of_present _ _ _ Hs). simpl.
    f_equal. apply insert_id. now rewrite Hs, (difference_absent s value Hv).
  - intros next Hrm. apply removeBan_inv in Hrm as ->.
    unfold removeBan. rewrite (new_Set_of_present _ _ _ (lookup_insert_eq _ _ _)).
    simpl. f_equal. rewrite insert_insert_eq. f_equal. apply difference_twice.
Qed.

Lemma removeBan_absent_and_repeated_witness :
  removeBan "Artist" "Exekias" (<["Culture" := {["Greek"]}]> initial_bans)
  = Ok (<["Culture" := {["Greek"]}]> initial_bans).
Proof.
  refine (proj1 (removeBan_absent_and_repeated "Artist" "Exekias"
                   (<["Culture" := {["Greek"]}]> initial_bans)) ∅ _ _).
  - reflexivity.
  - apply not_elem_of_empty.
Defined.

(** X12. Banning a value that was not banned and then removing it gives
    back the bans as they were. *)
Theorem addBan_then_removeBan attr value b s next :
  b !! attr = Some s -> value ∉ s ->
  addBan attr value b = Ok next ->
  removeBan attr value next = Ok b.
Proof.
  intros Hs Hv Hadd.
  apply addBan_inv in Hadd as [-> | [_ ->]].
  - unfold removeBan. rewrite (new_Set_of_present _ _ _ Hs). simpl.
    f_equal. apply insert_id. now rewrite Hs, (difference_absent s value Hv).
  - unfold removeBan. rewrite (new_Set_of_present _ _ _ (lookup_insert_eq _ _ _)).
    simpl. f_equal. rewrite insert_insert_eq. apply insert_id.
    rewrite Hs. f_equal. unfold set_at. rewrite Hs. simpl.
    symmetry. now apply union_difference_absent.
Qed.

Lemma addBan_then_removeBan_witness :
  removeBan "Culture" "Greek" (<["Culture" := {["Greek"]}]> initial_bans)
  = Ok initial_bans.
Proof.
  apply (addBan_then_removeBan "Culture" "Greek" initial_bans ∅).
  - reflexivity.
  - apply not_elem_of_empty.
  - vm_compute. reflexivity.
Defined.

(** X13. Banning is idempotent: banning a value that is already in the
    set of its attribute returns the bans unchanged, and banning the same
    value twice is the same as banning it once. *)
Theorem addBan_idempotent attr value b :
  (forall s, b !! attr = Some s -> value ∈ s -> addBan attr value b = Ok b) /\
  (forall next, addBan attr value b = Ok next ->
                addBan attr value next = Ok next).
Proof.
  split.
  - intros s Hs Hv. rewrite addBan_cases.
    destruct (_ || _); [reflexivity |].
    rewrite (new_Set_of_present _ _ _ Hs). simpl. f_equal.
    apply insert_id. now rewrite Hs, (union_present s value Hv).
  - intros next Hadd. rewrite addBan_cases in *.
    destruct (_ || _); [now injection Hadd as <- |].
    destruct (new_Set_of b attr) as [s |]; simpl in Hadd; [| discriminate].
    injection Hadd as <-.
    rewrite (new_Set_of_present _ _ _ (lookup_insert_eq _ _ _)). simpl.
    f_equal. rewrite insert_insert_eq. f_equal. apply union_present.
    apply elem_of_union_r, elem_of_singleton. reflexivity.
Qed.

Lemma addBan_idempotent_witness :
  addBan "Culture" "Greek" (<["Culture" := {["Greek"]}]> initial_bans)
  = Ok (<["Culture" := {["Greek"]}]> initial_bans).
Proof.
  refine (proj1 (addBan_idempotent "Culture" "Greek"
                   (<["Culture" := {["Greek"]}]> initial_bans)) {["Greek"]} _ _).
  - reflexivity.
  - apply elem_of_singleton. reflexivity.
Defined.

Lemma new_Set_of_Throw b attr e : new_Set_of b attr = Throw e -> e = TypeError.
Proof.
  unfold new_Set_of. destruct (b !! attr); [discriminate |].
  destruct (inherited attr); [now intros [= <-] | discriminate].
Qed.

Lemma addBan_update attr value b :
  addBan attr value b
  = update_set attr
      (if String.eqb value EmptyString || String.eqb value NA then None
       else Some (fun t => t ∪ {[value]})) b.
Proof. unfold addBan. now destruct (_ || _). Qed.

Lemma removeBan_update attr value b :
  removeBan attr value b = update_set attr (Some (fun t => t ∖ {[value]})) b.
Proof. reflexivity. Qed.

Lemma update_set_commute attr1 attr2 f g b :
  attr1 <> attr2 ->
  (let* b1 := update_set attr1 f b in update_set attr2 g b1)
  = (let* b2 := update_set attr2 g b in update_set attr1 f b2).
Proof.
  intros Hne. assert (Hne' : attr2 <> attr1) by congruence.
  destruct f as [f |], g as [g |]; simpl; try reflexivity.
  - destruct (new_Set_of b attr1) as [t1 | e1] eqn:H1;
    destruct (new_Set_of b attr2) as [t2 | e2] eqn:H2; simpl;
      rewrite ?(new_Set_of_insert_ne _ _ _ _ Hne),
              ?(new_Set_of_insert_ne _ _ _ _ Hne'), ?H1, ?H2; simpl;
      try reflexivity.
    + f_equal. now apply insert_insert_ne.
    + apply new_Set_of_Throw in H1, H2. congruence.
  - now destruct (new_Set_of b attr1).
  - now destruct (new_Set_of b attr2).
Qed.

Lemma rbind_ext {A B : Type} (c : result A) (k k' : A -> result B) :
  (forall a, k a = k' a) -> rbind c k = rbind c k'.
Proof. intros Hk. destruct c; simpl; [apply Hk | reflexivity]. Qed.

Lemma commute_by_updates (op1 op2 : bans_t -> result bans_t) attr1 attr2 f g b :
  (forall x, op1 x = update_set attr1 f x) ->
  (forall x, op2 x = update_set attr2 g x) ->
  attr1 <> attr2 ->
  (let* b1 := op1 b in op2 b1) = (let* b2 := op2 b in op1 b2).
Proof.
  intros H1 H2 Hne. rewrite (H1 b), (H2 b).
  etransitivity; [apply rbind_ext, H2 |].
  etransitivity; [| symmetry; apply rbind_ext, H1].
  now apply update_set_commute.
Qed.

(** X14. Updates of different attributes commute: banning or removing a
    value under one attribute name and then under another gives the same
    bans, or the same error, as the two updates in the other order. *)
Theorem updates_of_different_attributes_commute attr1 attr2 v1 v2 b :
  attr1 <> attr2 ->
  (let* b1 := addBan attr1 v1 b in addBan attr2 v2 b1)
  = (let* b2 := addBan attr2 v2 b in addBan attr1 v1 b2) /\
  (let* b1 := addBan attr1 v1 b in removeBan attr2 v2 b1)
  = (let* b2 := removeBan attr2 v2 b in addBan attr1 v1 b2) /\
  (let* b1 := removeBan attr1 v1 b in removeBan attr2 v2 b1)
  = (let* b2 := removeBan attr2 v2 b in removeBan attr1 v1 b2).
Proof.
  intros Hne. split; [| split].
  - apply (commute_by_updates (addBan attr1 v1) (addBan attr2 v2) attr1 attr2
             _ _ b (addBan_update attr1 v1) (addBan_update attr2 v2) Hne).
  - apply (commute_by_updates (addBan attr1 v1) (removeBan attr2 v2) attr1 attr2
             _ _ b (addBan_update attr1 v1) (removeBan_update attr2 v2) Hne).
  - apply (commute_by_updates (removeBan attr1 v1) (removeBan attr2 v2)
             attr1 attr2 _ _ b (removeBan_update attr1 v1)
             (removeBan_update attr2 v2) Hne).
Qed.

Lemma updates_of_different_attributes_commute_witness :
  (let* b1 := addBan "Artist" "Exekias" initial_bans in
   removeBan "Culture" "Greek" b1)
  = (let* b2 := removeBan "Culture" "Greek" initial_bans in
     addBan "Artist" "Exekias" b2).
Proof.
  refine (proj1 (proj2 (updates_of_different_attributes_commute
                          "Artist" "Culture" "Exekias" "Greek" initial_bans _))).
  discriminate.
Defined.

End BanAlgebra.

Section Page.

Implicit Types (st : app_state) (b : bans_t) (a : attribute) (pick : value).

Lemma attr_name_tracked a : tracked (attr_name a).
Proof. destruct a; [left | right; left | right; right]; reflexivity. Qed.

Lemma attr_name_in_names a : attr_name a ∈ tracked_names.
Proof. destruct a; vm_compute; reflexivity. Qed.

Lemma addBan_inv_value attr value prev next :
  addBan attr value prev = Ok next ->
  next = prev \/
  (value <> EmptyString /\ value <> NA /\
   next = <[attr := set_at prev attr ∪ {[value]}]> prev).
Proof.
  unfold addBan.
  destruct (String.eqb_spec value EmptyString) as [-> | He]; simpl.
  { intros [= <-]. now left. }
  destruct (String.eqb_spec value NA) as [-> | Hn]; simpl.
  { intros [= <-]. now left. }
  destruct (new_Set_of prev attr) as [s | e] eqn:Hs; simpl; [| discriminate].
  intros [= <-]. right. now apply new_Set_of_inv in Hs as ->.
Qed.

Lemma ban_keys_inv pick k1 k2 k3 :
  ban_keys pick = Ok (k1, k2, k3) ->
  artistOf pick = Ok k1 /\ safe (opt_prop pick "culture") = Ok k2 /\
  safe (opt_prop pick "century") = Ok k3.
Proof.
  unfold ban_keys.
  destruct (artistOf pick); simpl; [| discriminate].
  destruct (safe (opt_prop pick "culture")); simpl; [| discriminate].
  destruct (safe (opt_prop pick "century")); simpl; [| discriminate].
  now intros [= -> -> ->].
Qed.

Lemma safe_nonempty_trimmed (x : value) s :
  safe x = Ok s -> s <> EmptyString /\ trim s = s.
Proof.
  intros Hs. apply safe_inv in Hs as [-> | (str & _ & -> & Hne)].
  - split; [discriminate | reflexivity].
  - split; [exact Hne | apply trim_idempotent].
Qed.

Lemma shown_field_safe pick v a :
  inputs_of pick = Ok v ->
  shown_field a v <> EmptyString /\ trim (shown_field a v) = shown_field a v.
Proof.
  intros Hv. apply inputs_of_inv in Hv as [_ Hkeys].
  apply ban_keys_inv in Hkeys as (HA & HCu & HCe).
  destruct a; simpl; eapply safe_nonempty_trimmed; eassumption.
Qed.

Lemma addBan_tracked_Ok attr value b :
  tracked attr -> exists next, addBan attr value b = Ok next.
Proof.
  intros Ht. rewrite addBan_cases. destruct (_ || _); [eauto |].
  rewrite (new_Set_of_Ok b attr (tracked_not_inherited _ Ht)). simpl. eauto.
Qed.

Lemma removeBan_tracked_Ok attr value b :
  tracked attr -> exists next, removeBan attr value b = Ok next.
Proof.
  intros Ht. unfold removeBan.
  rewrite (new_Set_of_Ok b attr (tracked_not_inherited _ Ht)). simpl. eauto.
Qed.

Lemma handle_total apiKey ev st : exists st', handle apiKey ev st = Ok st'.
Proof.
  destruct ev as [http random | | a | a v]; simpl; try (eexists; reflexivity).
  - destruct (addBan_tracked_Ok (attr_name a) (shown_field a (inputs st))
                (bans st) (attr_name_tracked a)) as [b ->].
    simpl. eauto.
  - destruct (removeBan_tracked_Ok (attr_name a) v (bans st)
                (attr_name_tracked a)) as [b ->].
    simpl. eauto.
Qed.

Lemma dom_insert_tracked b a (s : gset string) :
  dom b = tracked_names -> dom (<[attr_name a := s]> b) = tracked_names.
Proof.
  intros Hdom. rewrite dom_insert_L, Hdom.
  apply subseteq_union_1_L. apply singleton_subseteq_l, attr_name_in_names.
Qed.

Lemma fetchArtwork_inputs apiKey http random st :
  let st' := snd (fetchArtwork apiKey http random st) in
  bans st' = bans st /\
  (loading st = false -> loading st' = false) /\
  (inputs st' = inputs st \/
   exists response v,
     select (bans st) response random = Ok (Shown v) /\ inputs st' = v).
Proof.
  intros st'. subst st'.
  destruct (key_present apiKey) eqn:Hkey.
  2: { rewrite (fetchArtwork_no_key _ _ _ _ Hkey). simpl. tauto. }
  destruct http as [response | e].
  2: { rewrite (fetchArtwork_rejected _ _ _ _ Hkey). simpl. tauto. }
  rewrite (fetchArtwork_response _ _ _ _ Hkey). simpl.
  destruct (select (bans st) response random) as [[v |] | e] eqn:Hsel; simpl;
    try tauto.
  repeat split; try reflexivity. right. now exists response, v.
Qed.

Lemma settle_inputs b http random st :
  let st' := settle b http random st in
  bans st' = bans st /\ loading st' = false /\
  (inputs st' = inputs st \/
   exists response v,
     select b response random = Ok (Shown v) /\ inputs st' = v).
Proof.
  unfold settle. destruct http as [response | e]; simpl; [| tauto].
  destruct (select b response random) as [[v |] | e] eqn:Hsel; simpl;
    try tauto.
  repeat split; try reflexivity. right. now exists response, v.
Qed.

(** The cycle of [fetchArtwork] without anything in between is the start
    followed by the settling with the bans of the start. *)
Lemma fetchArtwork_start_settle apiKey http random p :
  key_present apiKey = true ->
  snd (fetchArtwork apiKey http random (state p))
  = settle (bans (state p)) http random
      (state (snd (start_discover apiKey p))).
Proof.
  intros Hkey. unfold fetchArtwork, start_discover, settle. rewrite Hkey.
  simpl. destruct http as [response | e]; simpl; [| reflexivity].
  now destruct (select (bans (state p)) response random) as [[v |] | e].
Qed.

Lemma sound_bans_clear prev : sound_bans (clearBans prev).
Proof.
  split; [vm_compute; reflexivity |].
  intros k x Hx. exfalso. revert Hx. rewrite set_at_clearBans.
  apply not_elem_of_empty.
Qed.

Lemma sound_bans_add b a value :
  sound_bans b -> bannable value ->
  sound_bans (<[attr_name a := set_at b (attr_name a) ∪ {[value]}]> b).
Proof.
  intros [Hdom Hbans] Hnew. split; [now apply dom_insert_tracked |].
  intros k x. rewrite set_at_insert.
  destruct (decide (attr_name a = k)); [| apply Hbans].
  intros [Hx | ->%elem_of_singleton]%elem_of_union;
    [exact (Hbans _ _ Hx) | exact Hnew].
Qed.

Lemma sound_bans_remove b a value :
  sound_bans b ->
  sound_bans (<[attr_name a := set_at b (attr_name a) ∖ {[value]}]> b).
Proof.
  intros [Hdom Hbans]. split; [now apply dom_insert_tracked |].
  intros k x. rewrite set_at_insert.
  destruct (decide (attr_name a = k)); [| apply Hbans].
  intros [Hx _]%elem_of_difference. exact (Hbans _ _ Hx).
Qed.

Lemma page_invariant_initial : page_invariant initial_page.
Proof.
  split; [| split; [| split]].
  - apply (sound_bans_clear ∅).
  - now left.
  - simpl. split; [discriminate | congruence].
  - discriminate.
Qed.

Lemma page_invariant_step apiKey p p' :
  page_invariant p -> page_step apiKey p p' -> page_invariant p'.
Proof.
  intros (Hbans & Hinputs & Hload & Hflight) Hstep.
  destruct Hstep as [p Hidle | p b http random Hb | p ev st' Hother Hoff Hhandle].
  - unfold start_discover. destruct (negb (key_present apiKey)); simpl.
    + split; [exact Hbans | split; [exact Hinputs | split; assumption]].
    + split; [exact Hbans | split; [exact Hinputs | split]].
      * split; [discriminate | reflexivity].
      * now intros b' [= <-].
  - destruct (settle_inputs b http random (state p)) as (Hb' & Hl & Hi).
    unfold page_invariant. simpl. rewrite Hb', Hl.
    split; [exact Hbans | split; [| split]].
    + destruct Hi as [-> | (response & v & Hsel & ->)]; [exact Hinputs |].
      right.
      destruct (select_Shown_inv _ _ _ _ Hsel) as (el & pick & _ & _ & _ & Hv).
      now exists pick.
    + split; [discriminate | congruence].
    + discriminate.
  - destruct ev as [http random | | a | a v]; simpl in Hhandle;
      [destruct Hother | | |].
    + injection Hhandle as <-. unfold page_invariant. simpl.
      split; [apply sound_bans_clear | split; [exact Hinputs | split; assumption]].
    + destruct (addBan _ _ _) as [b |] eqn:Hadd; simpl in Hhandle;
        [| discriminate].
      injection Hhandle as <-. unfold page_invariant. simpl.
      split; [| split; [exact Hinputs | split; assumption]].
      apply addBan_inv_value in Hadd as [-> | (He & Hn & ->)];
        [exact Hbans |].
      apply sound_bans_add; [exact Hbans |].
      destruct Hinputs as [Hinit | [pick Hpick]].
      * rewrite Hinit in He. now destruct a.
      * destruct (shown_field_safe pick (inputs (state p)) a Hpick) as [_ Htrim].
        split; [exact He | split; [exact Hn | exact Htrim]].
    + destruct (removeBan _ _ _) as [b |] eqn:Hrm; simpl in Hhandle;
        [| discriminate].
      injection Hhandle as <-. unfold page_invariant. simpl.
      split; [| split; [exact Hinputs | split; assumption]].
      apply removeBan_inv in Hrm as ->. now apply sound_bans_remove.
Qed.

Lemma page_step_to apiKey p p' q :
  page_step apiKey p p' -> p' = q -> page_step apiKey p q.
Proof. now intros Hstep <-. Qed.

(** X15. In every page reached from the initial one by clicks and by
    requests settling, also while a request is in flight: the bans hold
    exactly the entries Artist, Culture and Century; every banned value is
    a string that [safe] can return for a known field (not empty, not N/A,
    no white space at its ends); the displayed record is the initial empty
    one or the displayed form of a fetched record; [loading] is true
    exactly while a request is in flight, and the bans captured by that
    request have the same two properties; and the handler of any click
    returns without throwing. *)
Theorem page_invariant_holds apiKey p :
  page_reachable apiKey p ->
  dom (bans (state p)) = tracked_names /\
  (forall k x, x ∈ set_at (bans (state p)) k -> bannable x) /\
  (inputs (state p) = initial_inputs \/
   exists pick, inputs_of pick = Ok (inputs (state p))) /\
  (loading (state p) = true <-> in_flight p <> None) /\
  (forall b, in_flight p = Some b ->
             dom b = tracked_names /\
             (forall k x, x ∈ set_at b k -> bannable x)) /\
  (forall ev, exists st', handle apiKey ev (state p) = Ok st').
Proof.
  intros Hreach.
  assert (Hinv : page_invariant p).
  { induction Hreach as [| p p' _ IH Hstep].
    - apply page_invariant_initial.
    - exact (page_invariant_step apiKey p p' IH Hstep). }
  destruct Hinv as ([Hdom Hbans] & Hinputs & Hload & Hflight).
  split; [exact Hdom | split; [exact Hbans | split; [exact Hinputs |]]].
  split; [exact Hload | split; [exact Hflight |]].
  intros ev. apply handle_total.
Qed.

End Page.

Section PageTheorems.

Implicit Types (st : app_state) (b : bans_t) (a : attribute) (pick : value).

Lemma page_invariant_holds_witness :
  page_reachable (Some "key") banned_while_loading /\
  dom (bans (state banned_while_loading)) = tracked_names /\
  (forall k x, x ∈ set_at (bans (state banned_while_loading)) k -> bannable x) /\
  (inputs (state banned_while_loading) = initial_inputs \/
   exists pick, inputs_of pick = Ok (inputs (state banned_while_loading))) /\
  (loading (state banned_while_loading) = true
   <-> in_flight banned_while_loading <> None) /\
  (forall b, in_flight banned_while_loading = Some b ->
             dom b = tracked_names /\
             (forall k x, x ∈ set_at b k -> bannable x)) /\
  (forall ev,
      exists st', handle (Some "key") ev (state banned_while_loading) = Ok st').
Proof.
  assert (Hreach : page_reachable (Some "key") banned_while_loading).
  { apply (reach_page_step (Some "key")
             {| state := {| inputs := vase_view; bans := initial_bans;
                            loading := true; error := EmptyString |};
                in_flight := Some initial_bans |}).
    - apply (reach_page_step (Some "key")
               {| state := vase_shown; in_flight := None |}).
      + apply (reach_page_step (Some "key")
                 {| state := {| inputs := initial_inputs; bans := initial_bans;
                                loading := true; error := EmptyString |};
                    in_flight := Some initial_bans |}).
        * apply (reach_page_step (Some "key") initial_page).
          -- apply reach_initial_page.
          -- eapply page_step_to; [apply step_discover; reflexivity |].
             reflexivity.
        * eapply page_step_to.
          -- apply (step_settle (Some "key") _ initial_bans
                      (Ok (response_of [vase])) half). reflexivity.
          -- vm_compute. reflexivity.
      + eapply page_step_to; [apply step_discover; reflexivity |].
        reflexivity.
    - eapply page_step_to.
      + apply (step_click (Some "key") _ (ClickPill CultureAttr)
                 (state banned_while_loading)); [exact I | exact I |].
        vm_compute. reflexivity.
      + reflexivity. }
  split; [exact Hreach |].
  exact (page_invariant_holds (Some "key") banned_while_loading Hreach).
Defined.

(** The request in flight filters with the bans of the click on Discover:
    when the culture of the vase is banned while the request is pending and
    the response holds the vase, the vase is displayed again, with a banned
    culture. *)
Example settled_with_earlier_bans :
  let p' := {| state := settle initial_bans (Ok (response_of [vase])) half
                          (state banned_while_loading);
               in_flight := None |} in
  page_step (Some "key") banned_while_loading p' /\
  inputs (state p') = vase_view /\
  Culture (inputs (state p')) ∈ set_at (bans (state p')) "Culture".
Proof.
  intros p'. split; [| split].
  - apply (step_settle (Some "key") banned_while_loading initial_bans).
    reflexivity.
  - vm_compute. reflexivity.
  - vm_compute. reflexivity.
Qed.

Lemma shown_not_banned b response random v a :
  select b response random = Ok (Shown v) ->
  shown_field a v ∉ set_at b (attr_name a).
Proof.
  intros Hsel.
  destruct (select_Shown_inv _ _ _ _ Hsel) as (el & pick & Hel & Hin & _ & Hv).
  destruct (eligible_elem _ _ _ _ Hel Hin) as [Hkeep _].
  apply inputs_of_inv in Hv as [_ Hkeys].
  destruct (keep_true_unbanned _ _ Hkeep) as (k1 & k2 & k3 & Hkeys' & H1 & H2 & H3).
  rewrite Hkeys in Hkeys'. injection Hkeys' as <- <- <-.
  now destruct a.
Qed.

(** X16. Banning the value a pill displays and then discovering: when the
    displayed value is neither empty nor N/A, the click on its pill puts it
    in the set of its attribute, and a Discover after that either leaves
    the displayed record as it is (the cycle failed) or displays a record
    with another value in that field. *)
Theorem banned_field_changes apiKey a st st1 http random st2 :
  shown_field a (inputs st) <> EmptyString ->
  shown_field a (inputs st) <> NA ->
  handle apiKey (ClickPill a) st = Ok st1 ->
  handle apiKey (ClickDiscover http random) st1 = Ok st2 ->
  shown_field a (inputs st) ∈ set_at (bans st1) (attr_name a) /\
  (inputs st2 = inputs st \/
   shown_field a (inputs st2) <> shown_field a (inputs st)).
Proof.
  intros He Hn Hpill Hdisc. simpl in Hpill, Hdisc.
  rewrite (addBan_unguarded _ _ _ He Hn) in Hpill.
  rewrite (new_Set_of_Ok _ _ (tracked_not_inherited _ (attr_name_tracked a)))
    in Hpill.
  simpl in Hpill. injection Hpill as <-. injection Hdisc as <-.
  assert (Hin : shown_field a (inputs st)
                ∈ set_at (<[attr_name a := set_at (bans st) (attr_name a)
                                           ∪ {[shown_field a (inputs st)]}]>
                            (bans st)) (attr_name a)).
  { rewrite set_at_insert. destruct (decide (attr_name a = attr_name a));
      [| congruence].
    apply elem_of_union_r, elem_of_singleton. reflexivity. }
  split; [exact Hin |].
  match goal with
  | |- context [fetchArtwork apiKey http random ?s] =>
      destruct (fetchArtwork_inputs apiKey http random s)
        as (_ & _ & [Hi | (response & v & Hsel & Hv)])
  end.
  - left. exact Hi.
  - right. rewrite Hv. simpl in Hsel. intros Heq.
    apply (shown_not_banned _ _ _ _ a Hsel). now rewrite Heq.
Qed.

Lemma banned_field_changes_witness :
  let st2 := snd (fetchArtwork (Some "key") (Ok (response_of [vase; amphora]))
                    quarter vase_greek_banned) in
  shown_field CultureAttr (inputs vase_shown)
  ∈ set_at (bans vase_greek_banned) (attr_name CultureAttr) /\
  (inputs st2 = inputs vase_shown \/
   shown_field CultureAttr (inputs st2)
   <> shown_field CultureAttr (inputs vase_shown)).
Proof.
  intros st2.
  apply (banned_field_changes (Some "key") CultureAttr vase_shown
           vase_greek_banned (Ok (response_of [vase; amphora])) quarter st2).
  - discriminate.
  - discriminate.
  - vm_compute. reflexivity.
  - reflexivity.
Defined.

Lemma js_or_truthy (x d : value) : truthy d = true -> truthy (js_or x d) = true.
Proof. intros Hd. unfold js_or. now destruct (truthy x) eqn:Hx. Qed.

Lemma or_dash_truthy (x : value) : truthy x = true -> or_dash x = x.
Proof. unfold or_dash, js_or. now intros ->. Qed.

Lemma or_dash_nonempty (s : string) :
  s <> EmptyString -> or_dash (VStr s) = VStr s.
Proof.
  intros Hs. apply or_dash_truthy. simpl.
  apply String.eqb_neq in Hs. now rewrite Hs.
Qed.

(** X17. Once a record has been selected, the viewer shows no placeholder
    dash: the texts of Title, Artist, Culture, Century, Date and Medium
    are the fields of the record themselves; and the image is rendered,
    rather than its placeholder, exactly when the record has a truthy
    primaryimageurl. *)
Theorem no_dash_after_selection pick v :
  inputs_of pick = Ok v ->
  or_dash (Title v) = Title v /\
  or_dash (VStr (Artist v)) = VStr (Artist v) /\
  or_dash (VStr (Culture v)) = VStr (Culture v) /\
  or_dash (VStr (Century v)) = VStr (Century v) /\
  or_dash (Date v) = Date v /\
  or_dash (Medium v) = Medium v /\
  truthy (Image v) = truthy (prop pick "primaryimageurl").
Proof.
  intros Hv.
  destruct (shown_field_safe pick v ArtistAttr Hv) as [HA _].
  destruct (shown_field_safe pick v CultureAttr Hv) as [HCu _].
  destruct (shown_field_safe pick v CenturyAttr Hv) as [HCe _].
  simpl in HA, HCu, HCe.
  destruct (inputs_of_inv _ _ Hv) as [Hnull Hkeys].
  rewrite (inputs_of_Ok pick _ _ _ Hnull Hkeys) in Hv. injection Hv as <-.
  simpl in *.
  split; [apply or_dash_truthy, js_or_truthy; reflexivity |].
  split; [now apply or_dash_nonempty |].
  split; [now apply or_dash_nonempty |].
  split; [now apply or_dash_nonempty |].
  split; [apply or_dash_truthy, js_or_truthy; reflexivity |].
  split; [apply or_dash_truthy, js_or_truthy; reflexivity |].
  unfold js_or. now destruct (truthy (prop pick "primaryimageurl")) eqn:Hp.
Qed.

Lemma no_dash_after_selection_witness :
  or_dash (VStr "Amphora") = VStr "Amphora" /\
  or_dash (VStr "Exekias") = VStr "Exekias" /\
  or_dash (VStr "Roman") = VStr "Roman" /\
  or_dash (VStr "N/A") = VStr "N/A" /\
  or_dash (VStr "540 BC") = VStr "540 BC" /\
  or_dash (VStr "N/A") = VStr "N/A" /\
  truthy (VStr EmptyString) = truthy (prop amphora "primaryimageurl").
Proof.
  apply (no_dash_after_selection amphora
           {| Title := VStr "Amphora"; Artist := "Exekias"; Culture := "Roman";
              Century := "N/A"; Date := VStr "540 BC"; Medium := VStr "N/A";
              Image := VStr EmptyString |}).
  reflexivity.
Defined.

End PageTheorems.

Section Chips.

Implicit Types (st : app_state) (b : bans_t) (a : attribute) (k v : string).

Lemma append_cancel k (x y : string) : k ++ x = k ++ y -> x = y.
Proof. induction k as [| c k IH]; simpl; [trivial | intros [= H]; auto]. Qed.

Lemma chip_key_inj a a' v v' :
  attr_name a ++ ":" ++ v = attr_name a' ++ ":" ++ v' -> a = a' /\ v = v'.
Proof.
  destruct a, a'; simpl; intros H; try discriminate H;
    injection H as H; (split; [reflexivity | exact H]).
Qed.

Lemma chips_tracked b sA sCu sCe :
  b !! "Artist" = Some sA -> b !! "Culture" = Some sCu ->
  b !! "Century" = Some sCe ->
  chips b = Ok ((chip "Artist" <$> elements sA)
                ++ (chip "Culture" <$> elements sCu)
                ++ (chip "Century" <$> elements sCe))%list.
Proof. intros HA HCu HCe. unfold chips, chips_of. now rewrite HA, HCu, HCe. Qed.

Lemma no_bans_hint_tracked b sA sCu sCe :
  b !! "Artist" = Some sA -> b !! "Culture" = Some sCu ->
  b !! "Century" = Some sCe ->
  no_bans_hint b
  = Ok ((size sA =? 0)%nat && (size sCu =? 0)%nat && (size sCe =? 0)%nat).
Proof.
  intros HA HCu HCe. unfold no_bans_hint, no_size. rewrite HA, HCu, HCe. simpl.
  destruct (size sA =? 0)%nat; simpl; [| reflexivity].
  now destruct (size sCu =? 0)%nat.
Qed.

Lemma size_zero_elements (s : gset string) :
  (size s =? 0)%nat = true <-> elements s = [].
Proof.
  rewrite Nat.eqb_eq. unfold size, set_size. simpl.
  now destruct (elements s).
Qed.

(** X18. For bans that hold the three sets, the chips and the hint for an
    empty ban list are rendered without error; the hint is rendered
    exactly when there is no chip; there are as many chips as banned
    values; and the chip of a value under an attribute is rendered
    exactly when the value is in the set of that attribute. *)
Theorem chips_and_hint b :
  has_tracked b ->
  exists cs hint,
    chips b = Ok cs /\ no_bans_hint b = Ok hint /\
    (hint = true <-> cs = []) /\
    length cs = (size (set_at b "Artist") + size (set_at b "Culture")
                 + size (set_at b "Century"))%nat /\
    (forall a v,
        (attr_name a ++ ":" ++ v, attr_name a ++ ": " ++ v) ∈ cs <->
        v ∈ set_at b (attr_name a)).
Proof.
  intros ([sA HA] & [sCu HCu] & [sCe HCe]).
  eexists _, _.
  split; [exact (chips_tracked b sA sCu sCe HA HCu HCe) |].
  split; [exact (no_bans_hint_tracked b sA sCu sCe HA HCu HCe) |].
  unfold set_at. rewrite HA, HCu, HCe. simpl.
  split; [| split].
  - rewrite !andb_true_iff, !size_zero_elements, !app_nil. split.
    + intros [[-> ->] ->]. now repeat split.
    + intros (H1 & H2 & H3).
      apply fmap_nil_inv in H1, H2, H3. now repeat split.
  - rewrite !length_app, !length_fmap. unfold size, set_size. simpl. lia.
  - intros a v. fold (chip (attr_name a) v).
    rewrite !elem_of_app, !list_elem_of_fmap. split.
    + intros [(x & Heq & Hx) | [(x & Heq & Hx) | (x & Heq & Hx)]];
        injection Heq as Hkey _;
        [ apply (chip_key_inj a ArtistAttr v x) in Hkey as [-> ->]
        | apply (chip_key_inj a CultureAttr v x) in Hkey as [-> ->]
        | apply (chip_key_inj a CenturyAttr v x) in Hkey as [-> ->] ];
        simpl; [rewrite HA | rewrite HCu | rewrite HCe]; simpl;
        now apply elem_of_elements.
    + destruct a; simpl; [rewrite HA | rewrite HCu | rewrite HCe]; simpl;
        intros Hv%elem_of_elements;
        [left | right; left | right; right]; now exists v.
Qed.

Lemma chips_and_hint_witness :
  exists cs hint,
    chips (<["Culture" := {["Greek"]}]> initial_bans) = Ok cs /\
    no_bans_hint (<["Culture" := {["Greek"]}]> initial_bans) = Ok hint /\
    (hint = true <-> cs = []) /\
    length cs
    = (size (set_at (<["Culture" := {["Greek"]}]> initial_bans) "Artist")
       + size (set_at (<["Culture" := {["Greek"]}]> initial_bans) "Culture")
       + size (set_at (<["Culture" := {["Greek"]}]> initial_bans) "Century"))%nat /\
    (forall a v,
        (attr_name a ++ ":" ++ v, attr_name a ++ ": " ++ v) ∈ cs <->
        v ∈ set_at (<["Culture" := {["Greek"]}]> initial_bans) (attr_name a)).
Proof.
  apply (chips_and_hint (<["Culture" := {["Greek"]}]> initial_bans)).
  split; [| split]; eexists; vm_compute; reflexivity.
Defined.

(** X19. No two chips have the same key: for bans that hold the three
    sets, the keys of the rendered chips are pairwise distinct. *)
Theorem chip_keys_distinct b cs :
  has_tracked b -> chips b = Ok cs -> NoDup cs.*1.
Proof.
  intros ([sA HA] & [sCu HCu] & [sCe HCe]) Hcs.
  rewrite (chips_tracked b sA sCu sCe HA HCu HCe) in Hcs. injection Hcs as <-.
  assert (Hgroup : forall a (s : gset string),
             NoDup (chip (attr_name a) <$> elements s).*1).
  { intros a s. rewrite <- list_fmap_compose.
    apply NoDup_fmap_2_strong; [| apply NoDup_elements].
    intros x y _ _ Heq. simpl in Heq. now apply chip_key_inj in Heq as [_ ->]. }
  assert (Hcross : forall a a' (s s' : gset string) key,
             a <> a' ->
             key ∈ (chip (attr_name a) <$> elements s).*1 ->
             key ∉ (chip (attr_name a') <$> elements s').*1).
  { intros a a' s s' key Hne.
    rewrite <- !list_fmap_compose, !list_elem_of_fmap.
    intros (x & -> & _) (y & Heq & _). simpl in Heq.
    now apply chip_key_inj in Heq as [-> _]. }
  rewrite !fmap_app. apply NoDup_app. split; [apply (Hgroup ArtistAttr) |].
  split.
  - intros key Hkey [Hin | Hin]%elem_of_app.
    + now apply (Hcross ArtistAttr CultureAttr sA sCu key).
    + now apply (Hcross ArtistAttr CenturyAttr sA sCe key).
  - apply NoDup_app. split; [apply (Hgroup CultureAttr) |].
    split; [| apply (Hgroup CenturyAttr)].
    intros key Hkey. now apply (Hcross CultureAttr CenturyAttr sCu sCe key).
Qed.

Lemma chip_keys_distinct_witness :
  chips three_bans = Ok [("Artist:Greek", "Artist: Greek");
                         ("Culture:Greek", "Culture: Greek");
                         ("Culture:Roman", "Culture: Roman")] /\
  NoDup [("Artist:Greek", "Artist: Greek");
         ("Culture:Greek", "Culture: Greek");
         ("Culture:Roman", "Culture: Roman")].*1.
Proof.
  split; [vm_compute; reflexivity |].
  apply (chip_keys_distinct three_bans).
  - split; [| split]; eexists; vm_compute; reflexivity.
  - vm_compute. reflexivity.
Defined.

End Chips.

Section Clicks.

Implicit Types (st : app_state) (b : bans_t) (a : attribute) (k v : string).

Lemma chips_length b cs :
  has_tracked b -> chips b = Ok cs -> length cs = ban_count b.
Proof.
  intros ([sA HA] & [sCu HCu] & [sCe HCe]) Hcs.
  rewrite (chips_tracked b sA sCu sCe HA HCu HCe) in Hcs. injection Hcs as <-.
  unfold ban_count, set_at. rewrite HA, HCu, HCe. simpl.
  rewrite !length_app, !length_fmap. unfold size, set_size. simpl. lia.
Qed.

Lemma ban_count_insert b a (s : gset string) :
  (ban_count (<[attr_name a := s]> b) + size (set_at b (attr_name a))
   = ban_count b + size s)%nat.
Proof.
  unfold ban_count. rewrite !set_at_insert.
  destruct a; simpl;
    repeat match goal with
           | |- context [decide (?x = ?y)] => destruct (decide (x = y)) as [Heq | Hneq]
           end; try discriminate; try congruence; lia.
Qed.

Lemma size_remove_member (s : gset string) v :
  v ∈ s -> S (size (s ∖ {[v]})) = size s.
Proof.
  intros Hv.
  assert (Hsub : ({[v]} : gset string) ⊆ s) by (now apply singleton_subseteq_l).
  pose proof (size_difference s {[v]} Hsub) as Hd.
  pose proof (subseteq_size _ _ Hsub) as Hle.
  rewrite size_singleton in Hd, Hle. lia.
Qed.

Lemma size_add_fresh (s : gset string) v :
  v ∉ s -> size (s ∪ {[v]}) = S (size s).
Proof.
  intros Hv. rewrite size_union.
  - rewrite size_singleton. lia.
  - intros x Hx ->%elem_of_singleton. contradiction.
Qed.

(** X20. The click on the chip of a banned value removes that ban and
    nothing else: afterwards the value is not in the set of its attribute,
    every other banned value is still banned, no value is added, there is
    exactly one chip less, and the displayed record is unchanged. *)
Theorem chip_click_removes_one apiKey a v st st' :
  has_tracked (bans st) -> offered (ClickChip a v) st ->
  handle apiKey (ClickChip a v) st = Ok st' ->
  inputs st' = inputs st /\
  (forall k x, x ∈ set_at (bans st') k <->
               x ∈ set_at (bans st) k /\ ~ (k = attr_name a /\ x = v)) /\
  (forall cs cs', chips (bans st) = Ok cs -> chips (bans st') = Ok cs' ->
                  length cs = S (length cs')).
Proof.
  intros Htr Hoff Hstep. simpl in Hoff, Hstep.
  destruct (removeBan _ _ _) as [b |] eqn:Hrm; simpl in Hstep; [| discriminate].
  injection Hstep as <-. simpl. apply removeBan_inv in Hrm as ->.
  split; [reflexivity |]. split.
  - intros k x. rewrite set_at_insert.
    destruct (decide (attr_name a = k)) as [<- | Hne].
    + rewrite elem_of_difference, elem_of_singleton. split.
      * intros [Hx Hxv]. split; [exact Hx | tauto].
      * intros [Hx Hnot]. split; [exact Hx |]. intros ->. now apply Hnot.
    + split; [| tauto]. intros Hx. split; [exact Hx |]. intros [-> _].
      now apply Hne.
  - intros cs cs' Hcs Hcs'.
    rewrite (chips_length _ _ Htr Hcs).
    rewrite (chips_length _ _ (has_tracked_insert _ _ _ Htr) Hcs').
    pose proof (ban_count_insert (bans st) a
                  (set_at (bans st) (attr_name a) ∖ {[v]})) as Hcount.
    pose proof (size_remove_member (set_at (bans st) (attr_name a)) v Hoff).
    lia.
Qed.

Lemma chip_click_removes_one_witness :
  let st' := {| inputs := vase_view; bans := <["Culture" := ∅]> initial_bans;
                loading := false; error := EmptyString |} in
  inputs st' = inputs vase_greek_banned /\
  (forall k x, x ∈ set_at (bans st') k <->
               x ∈ set_at (bans vase_greek_banned) k /\
               ~ (k = attr_name CultureAttr /\ x = "Greek")) /\
  (forall cs cs', chips (bans vase_greek_banned) = Ok cs ->
                  chips (bans st') = Ok cs' -> length cs = S (length cs')).
Proof.
  intros st'.
  apply (chip_click_removes_one (Some "key") CultureAttr "Greek"
           vase_greek_banned st').
  - split; [| split]; eexists; vm_compute; reflexivity.
  - vm_compute. reflexivity.
  - vm_compute. reflexivity.
Defined.

(** X21. The click on a pill bans the displayed value of that field when
    the value is not empty, not N/A and not banned yet: the value joins the
    set of its attribute and there is exactly one chip more. In the other
    cases the click leaves the bans as they are. The displayed record is
    unchanged in every case. *)
Theorem pill_click_adds_at_most_one apiKey a st st' :
  has_tracked (bans st) ->
  handle apiKey (ClickPill a) st = Ok st' ->
  let value := shown_field a (inputs st) in
  inputs st' = inputs st /\
  (value = EmptyString \/ value = NA \/
   value ∈ set_at (bans st) (attr_name a) -> bans st' = bans st) /\
  (value <> EmptyString -> value <> NA ->
   value ∉ set_at (bans st) (attr_name a) ->
   bans st' = <[attr_name a := set_at (bans st) (attr_name a) ∪ {[value]}]>
                (bans st) /\
   forall cs cs', chips (bans st) = Ok cs -> chips (bans st') = Ok cs' ->
                  length cs' = S (length cs)).
Proof.
  intros Htr Hstep value. simpl in Hstep. fold value in Hstep.
  destruct (addBan _ _ _) as [b |] eqn:Hadd; simpl in Hstep; [| discriminate].
  injection Hstep as <-. simpl.
  split; [reflexivity |]. split.
  - intros [He | [Hn | Hin]].
    + rewrite addBan_guarded in Hadd by (now left). congruence.
    + rewrite addBan_guarded in Hadd by (now right). congruence.
    + apply addBan_inv in Hadd as [-> | [_ ->]]; [reflexivity |].
      apply insert_id. unfold set_at in *.
      assert (Hk : is_Some (bans st !! attr_name a)).
      { destruct Htr as (HA & HCu & HCe). now destruct a. }
      destruct Hk as [s Hs]. rewrite Hs in *. simpl in *.
      now rewrite (union_present s value Hin).
  - intros He Hn Hfresh.
    rewrite (addBan_unguarded _ _ _ He Hn) in Hadd.
    rewrite (new_Set_of_Ok _ _ (tracked_not_inherited _ (attr_name_tracked a)))
      in Hadd.
    simpl in Hadd. injection Hadd as <-. split; [reflexivity |].
    intros cs cs' Hcs Hcs'.
    rewrite (chips_length _ _ Htr Hcs).
    rewrite (chips_length _ _ (has_tracked_insert _ _ _ Htr) Hcs').
    pose proof (ban_count_insert (bans st) a
                  (set_at (bans st) (attr_name a) ∪ {[value]})) as Hcount.
    pose proof (size_add_fresh (set_at (bans st) (attr_name a)) value Hfresh).
    lia.
Qed.

Lemma pill_click_adds_at_most_one_witness :
  let value := shown_field CultureAttr (inputs vase_shown) in
  inputs vase_greek_banned = inputs vase_shown /\
  (value = EmptyString \/ value = NA \/
   value ∈ set_at (bans vase_shown) (attr_name CultureAttr) ->
   bans vase_greek_banned = bans vase_shown) /\
  (value <> EmptyString -> value <> NA ->
   value ∉ set_at (bans vase_shown) (attr_name CultureAttr) ->
   bans vase_greek_banned
   = <[attr_name CultureAttr :=
         set_at (bans vase_shown) (attr_name CultureAttr) ∪ {[value]}]>
       (bans vase_shown) /\
   forall cs cs', chips (bans vase_shown) = Ok cs ->
                  chips (bans vase_greek_banned) = Ok cs' ->
                  length cs' = S (length cs)).
Proof.
  apply (pill_click_adds_at_most_one (Some "key") CultureAttr vase_shown
           vase_greek_banned).
  - split; [| split]; eexists; vm_compute; reflexivity.
  - vm_compute. reflexivity.
Defined.

End Clicks.

Section EdgeRecords.

Implicit Types (b : bans_t) (r p : value) (l el : list value).

Lemma nullish_ban_keys r : nullish r = true -> ban_keys r = Ok (NA, NA, NA).
Proof. destruct r; try discriminate; reflexivity. Qed.

Lemma nullish_inputs_of r : nullish r = true -> inputs_of r = Throw TypeError.
Proof. destruct r; try discriminate; reflexivity. Qed.

(** X22. The artist of a record is read from the first contributor only:
    with a non-empty people array it is [safe] of the name of the first
    element, whatever the other elements are; with an empty people array,
    or without a people property, it is N/A. *)
Theorem artist_is_first_contributor props :
  (forall p rest,
      own props "people" = Some (VArr (p :: rest)) ->
      artistOf (VObj props) = safe (opt_prop p "name")) /\
  (own props "people" = Some (VArr []) \/ own props "people" = None ->
   artistOf (VObj props) = Ok NA).
Proof.
  split.
  - intros p rest Hp. unfold artistOf, first_person_name, opt_prop. simpl.
    now rewrite Hp.
  - intros [Hp | Hp]; unfold artistOf, first_person_name, opt_prop; simpl;
      now rewrite Hp.
Qed.

Lemma artist_is_first_contributor_witness :
  artistOf (VObj [("people", VArr [VObj [("name", VStr "Exekias")];
                                   VObj [("name", VStr "Amasis")]])])
  = safe (opt_prop (VObj [("name", VStr "Exekias")]) "name").
Proof.
  refine (proj1 (artist_is_first_contributor
                   [("people", VArr [VObj [("name", VStr "Exekias")];
                                     VObj [("name", VStr "Amasis")]])])
            _ [VObj [("name", VStr "Amasis")]] _).
  reflexivity.
Defined.

(** X23. A batch is not checked for null elements: in every state of the
    bans reachable from the initial one, a non-empty batch made of null
    elements passes the filter whole, and for every random value in [0,1)
    the selection throws a TypeError, so that the cycle ends with the
    message of a failed fetch and the displayed record unchanged. *)
Theorem null_records_throw b l response (random : double) :
  reachable b -> l <> [] -> Forall (fun r => nullish r = true) l ->
  artworks response = VArr l ->
  (0 <= random)%Q -> (random < 1)%Q ->
  eligible b (VArr l) = Ok l /\
  select b response random = Throw TypeError /\
  (forall apiKey st,
      key_present apiKey = true -> bans st = b ->
      snd (fetchArtwork apiKey (Ok response) random st)
      = {| inputs := inputs st; bans := bans st; loading := false;
           error := fetch_message |}).
Proof.
  intros Hreach Hne Hnull Harts Hlo Hhi.
  destruct (reachable_invariant b Hreach) as [Hfree ([sA HA] & [sCu HCu] & [sCe HCe])].
  assert (Hel : eligible b (VArr l) = Ok l).
  { simpl. apply filter_array_all. eapply Forall_impl; [exact Hnull |].
    intros r Hr. simpl in Hr.
    rewrite (keep_unbanned b r NA NA NA sA sCu sCe (nullish_ban_keys r Hr) HA HCu HCe).
    generalize (Hfree "Artist"), (Hfree "Culture"), (Hfree "Century").
    unfold set_at. rewrite HA, HCu, HCe. simpl. intros H1 H2 H3.
    now rewrite !bool_decide_eq_false_2 by assumption. }
  assert (Hsel : select b response random = Throw TypeError).
  { rewrite <- Harts in Hel.
    destruct (select_pick b response random l Hel Hne Hlo Hhi)
      as (i & pick & _ & _ & Hpick & ->).
    rewrite Forall_forall in Hnull.
    rewrite (nullish_inputs_of pick); [reflexivity |].
    apply Hnull. now apply list_elem_of_lookup_2 in Hpick. }
  split; [exact Hel | split; [exact Hsel |]].
  intros apiKey st Hkey <-.
  rewrite (fetchArtwork_response _ _ _ _ Hkey). simpl. now rewrite Hsel.
Qed.

Lemma null_records_throw_witness :
  select initial_bans (response_of [VNull; VNull]) half = Throw TypeError.
Proof.
  refine (proj1 (proj2 (null_records_throw initial_bans [VNull; VNull]
                          (response_of [VNull; VNull]) half _ _ _ _ _ _))).
  - apply reach_initial.
  - discriminate.
  - repeat constructor.
  - reflexivity.
  - unfold Qle. simpl. lia.
  - reflexivity.
Defined.

End EdgeRecords.
